(** * Whisper speech-to-text service: a shallow embedding of
      [backend/whisper-service/main.py] and the properties of its handlers.

    The service keeps one global model handle, loads it at start-up from the
    process environment, and serves three routes: [/health], [/transcribe]
    and [/transcribe-stream].  The two transcription routes stage the upload
    in a temporary file, call the model on that file and unlink the file in
    a [finally] block.

    Modelling choices.
    - A Python [str] is a list of Unicode code points ([list N]); [lit]
      turns an ASCII literal of the source into such a list.
    - A Python [float] is a primitive IEEE-754 binary64 ([PrimFloat.float]).
    - [os.environ] and the file system are finite maps ([gmap]).
    - Handlers are computations in a state-and-exception monad [M] over the
      process state [World]; [try/except], [try/finally] and [raise] are
      combinators of that monad.
    - Everything outside the repository (the faster-whisper model, the
      upload object, [tempfile], [os.path]) is an input of the embedding:
      the model and the upload are oracles carried by the state or by the
      request, and the standard-library functions are written out after
      their CPython (POSIX) definitions.
    - What the operating system may refuse (creating, writing, closing or
      unlinking a file) is an input too: the state carries the faults of
      the disk, and the [tempfile] and [os] calls consult them.
    - Exceptions are instances of subclasses of [Exception]; log records are
      not part of the state. *)

From Stdlib Require Import ZArith NArith PrimFloat DecimalString.
From stdpp Require Import gmap strings list.

(** ** Strings *)

Definition str := list N.
Definition bytes := list N.

Fixpoint lit (s : string) : str :=
  match s with
  | EmptyString => []
  | String a s' => Ascii.N_of_ascii a :: lit s'
  end.

Arguments lit s : simpl never.

(** [str(n)] for an integer. *)
Definition str_of_Z (z : Z) : str := lit (NilZero.string_of_int (Z.to_int z)).

(** [x or d] for a string [x]: the empty string is falsy. *)
Definition str_or (x d : str) : str :=
  match x with
  | [] => d
  | _ :: _ => x
  end.

(** [x or d] for [x : Optional[str]]: [None] and the empty string are falsy. *)
Definition opt_or (x : option str) (d : str) : str :=
  match x with
  | None => d
  | Some s => str_or s d
  end.

(** [sep.join(parts)]. *)
Fixpoint join (sep : str) (parts : list str) : str :=
  match parts with
  | [] => []
  | [p] => p
  | p :: rest => p ++ sep ++ join sep rest
  end.

(** The code points CPython's [Py_UNICODE_ISSPACE] accepts; [str.strip()]
    with no argument removes exactly these. *)
Definition isspace (c : N) : bool :=
  ((9 <=? c) && (c <=? 13) || (28 <=? c) && (c <=? 32) ||
   (c =? 133) || (c =? 160) || (c =? 5760) ||
   (8192 <=? c) && (c <=? 8202) || (c =? 8232) || (c =? 8233) ||
   (c =? 8239) || (c =? 8287) || (c =? 12288))%N.

Fixpoint lstrip (s : str) : str :=
  match s with
  | [] => []
  | c :: s' => if isspace c then lstrip s' else s
  end.

Definition rstrip (s : str) : str := rev (lstrip (rev s)).

Definition strip (s : str) : str := rstrip (lstrip s).

(** ** [os.path] (posixpath) *)

(** [p.rfind(c)] for a one-character [c]: the highest index, or -1. *)
Fixpoint rfind_from (p : str) (c : N) (i last : Z) : Z :=
  match p with
  | [] => last
  | x :: p' => rfind_from p' c (i + 1) (if (x =? c)%N then i else last)
  end.

Definition rfind (p : str) (c : N) : Z := rfind_from p c 0 (-1).

Definition sep : N := 47.     (* "/" *)
Definition extsep : N := 46.  (* "." *)

(** The [while filenameIndex < dotIndex] loop of [genericpath._splitext],
    by recursion on the number [n = dotIndex - filenameIndex] of indices
    left to visit; falling out of the loop returns [(p, p[:0])]. *)
Fixpoint splitext_scan (n : nat) (p : str) (filenameIndex dotIndex : Z) : str * str :=
  match n with
  | O => (p, [])
  | S n' =>
      if decide (take 1 (drop (Z.to_nat filenameIndex) p) ≠ [extsep])
      then (take (Z.to_nat dotIndex) p, drop (Z.to_nat dotIndex) p)
      else splitext_scan n' p (filenameIndex + 1) dotIndex
  end.

Definition splitext (p : str) : str * str :=
  let sepIndex := rfind p sep in
  let dotIndex := rfind p extsep in
  if (dotIndex >? sepIndex)%Z
  then splitext_scan (Z.to_nat (dotIndex - (sepIndex + 1))) p (sepIndex + 1) dotIndex
  else (p, []).

(** [os.path.join(a, b)] for two components. *)
Definition path_join (a b : str) : str :=
  match b with
  | c :: _ => if (c =? sep)%N then b
              else match last a with
                   | None => b
                   | Some z => if (z =? sep)%N then a ++ b else a ++ [sep] ++ b
                   end
  | [] => match last a with
          | None => []
          | Some z => if (z =? sep)%N then a else a ++ [sep]
          end
  end.

(** ** Exceptions *)

Inductive exc_class :=
| ImportError
| ModuleNotFoundError
| FileExistsError
| FileNotFoundError
| OSError
| ValueError
| UnicodeEncodeError
| RuntimeError.

Inductive exn :=
| HTTPException (status_code : Z) (detail : str)
| PyExc (cls : exc_class) (msg : str).

(** [isinstance(e, ImportError)]: [ModuleNotFoundError] is its subclass. *)
Definition is_ImportError (e : exn) : bool :=
  match e with
  | PyExc ImportError _ | PyExc ModuleNotFoundError _ => true
  | _ => false
  end.

(** [str(e)], what [f"{e}"] interpolates. *)
Definition exc_str (e : exn) : str :=
  match e with
  | HTTPException status_code detail => str_of_Z status_code ++ lit ": " ++ detail
  | PyExc _ msg => msg
  end.

Inductive result (A : Type) :=
| Ok (a : A)
| Raise (e : exn).
Arguments Ok {A} a.
Arguments Raise {A} e.

(** ** The model (faster-whisper), seen from the service *)

Record Segment := {
  seg_start : float;
  seg_end : float;
  seg_text : str
}.

Record TranscriptionInfo := {
  info_language : str;
  info_duration : float
}.

(** The lazy segment iterator returned by [WhisperModel.transcribe]: the
    segments it yields, and the exception that ends the iteration early,
    if any. *)
Record SegmentIter := {
  yielded : list Segment;
  raises : option exn
}.

Record DecodeParams := {
  p_language : option str;
  beam_size : Z;
  best_of : Z;
  temperature : Z;
  vad_filter : bool
}.

(** An opaque model handle: what [transcribe] does on the files on disk, a
    path and the decoding parameters. *)
Record WhisperModel := {
  model_transcribe :
    gmap str bytes → str → DecodeParams → result (SegmentIter * TranscriptionInfo)
}.

(** What [from faster_whisper import WhisperModel] does in this process:
    it binds the constructor, or raises. *)
Inductive import_result :=
| Imported (ctor : str → str → str → result WhisperModel)
| ImportRaised (e : exn).

(** ** Process state *)

(** An exception raised by the operating system or by the conversion of a
    path: its class and its text. *)
Definition os_error : Type := exc_class * str.

Definition os_exn (err : os_error) : exn := PyExc err.1 err.2.

(** What the operating system refuses.  Each field says, for the files on
    disk and a path, whether the call fails there and with what.
    [open_error]: creating the file ([os.open] with [O_CREAT | O_EXCL]),
    for any reason but the file existing already; this includes the
    [OSError] of a name that is too long and the [ValueError] or
    [UnicodeEncodeError] of a path that cannot be passed to the system.
    [write_error]: [tmp.write], with the content the file is left with.
    [close_error]: closing the file after it has been written.
    [unlink_error]: [os.unlink], for any reason but the file not existing. *)
Record OsFaults := {
  open_error : gmap str bytes → str → option os_error;
  write_error : gmap str bytes → str → bytes → option (bytes * os_error);
  close_error : gmap str bytes → str → option os_error;
  unlink_error : gmap str bytes → str → option os_error
}.

Record World := {
  whisper_model : option WhisperModel;   (* the module global *)
  environ : gmap str str;                (* os.environ *)
  faster_whisper : import_result;        (* the installed package *)
  fs : gmap str bytes;                   (* files on disk *)
  tempdir : str;                         (* tempfile.gettempdir() *)
  tmp_names : nat → str;                 (* tempfile's random name sequence *)
  tmp_seq : nat;                         (* names drawn so far *)
  os_faults : OsFaults                   (* what the system refuses *)
}.

Definition set_whisper_model (h : option WhisperModel) (w : World) : World :=
  {| whisper_model := h; environ := environ w; faster_whisper := faster_whisper w;
     fs := fs w; tempdir := tempdir w; tmp_names := tmp_names w; tmp_seq := tmp_seq w;
     os_faults := os_faults w |}.

Definition set_fs (f : gmap str bytes) (w : World) : World :=
  {| whisper_model := whisper_model w; environ := environ w;
     faster_whisper := faster_whisper w;
     fs := f; tempdir := tempdir w; tmp_names := tmp_names w; tmp_seq := tmp_seq w;
     os_faults := os_faults w |}.

Definition set_tmp_seq (n : nat) (w : World) : World :=
  {| whisper_model := whisper_model w; environ := environ w;
     faster_whisper := faster_whisper w;
     fs := fs w; tempdir := tempdir w; tmp_names := tmp_names w; tmp_seq := n;
     os_faults := os_faults w |}.

(** ** The monad of handlers *)

Definition M (A : Type) : Type := World → result A * World.

Definition ret {A} (a : A) : M A := fun w => (Ok a, w).

Definition raise {A} (e : exn) : M A := fun w => (Raise e, w).

Definition bind {A B} (m : M A) (k : A → M B) : M B :=
  fun w =>
    match m w with
    | (Ok a, w') => k a w'
    | (Raise e, w') => (Raise e, w')
    end.

Notation "'let*' x ':=' m 'in' k" := (bind m (fun x => k))
  (at level 10, x pattern, m at level 100, k at level 200, only parsing).

(** [try: body  except Exception as e: handler e]. *)
Definition try_except {A} (body : M A) (handler : exn → M A) : M A :=
  fun w =>
    match body w with
    | (Ok a, w') => (Ok a, w')
    | (Raise e, w') => handler e w'
    end.

(** [try: body  finally: cleanup].  The cleanup runs on both exits; if it
    raises, its exception replaces the outcome of the body. *)
Definition try_finally {A} (body : M A) (cleanup : M unit) : M A :=
  fun w =>
    match body w with
    | (r, w') =>
        match cleanup w' with
        | (Ok _, w'') => (r, w'')
        | (Raise e, w'') => (Raise e, w'')
        end
    end.

Definition gets {A} (f : World → A) : M A := fun w => (Ok (f w), w).

Definition lift {A} (r : result A) : M A := fun w => (r, w).

(** [os.environ.get(key, default)]. *)
Definition environ_get (w : World) (key dflt : str) : str :=
  default dflt (environ w !! key).

(** ** [tempfile] and [os] *)

(** [tempfile.TMP_MAX], which is [os.TMP_MAX] on Linux. *)
Definition TMP_MAX : nat := Z.to_nat 238328.
Definition template : str := lit "tmp".

Definition no_usable_name : exn :=
  PyExc FileExistsError (lit "[Errno 17] No usable temporary file name found").

(** [tempfile._mkstemp_inner]: draw up to [n] random names and create the
    first one that does not exist yet.  A [FileExistsError] of [os.open]
    moves on to the next name; any other exception of [os.open] leaves the
    function. *)
Fixpoint mkstemp_inner (n : nat) (dir pre suf : str) (names : nat → str)
    (seq : nat) (files : gmap str bytes) (faults : OsFaults)
    : result str * nat :=
  match n with
  | O => (Raise no_usable_name, seq)
  | S n' =>
      let file := path_join dir (pre ++ names seq ++ suf) in
      match files !! file with
      | Some _ => mkstemp_inner n' dir pre suf names (S seq) files faults
      | None =>
          match open_error faults files file with
          | Some (FileExistsError, _) =>
              mkstemp_inner n' dir pre suf names (S seq) files faults
          | Some err => (Raise (os_exn err), S seq)
          | None => (Ok file, S seq)
          end
      end
  end.

(** [tempfile.NamedTemporaryFile(delete=False, suffix=suffix)]: the new
    file is empty, and closing it (leaving the [with] block) keeps it on
    disk.  The result is [tmp.name]. *)
Definition NamedTemporaryFile (suffix : str) : M str :=
  fun w =>
    match mkstemp_inner TMP_MAX (tempdir w) template suffix
            (tmp_names w) (tmp_seq w) (fs w) (os_faults w) with
    | (Ok name, seq) =>
        (Ok name, set_fs (<[name := []]> (fs w)) (set_tmp_seq seq w))
    | (Raise e, seq) => (Raise e, set_tmp_seq seq w)
    end.

(** [tmp.write(data)] on the file named [name]. *)
Definition file_write (name : str) (data : bytes) : M unit :=
  fun w =>
    match write_error (os_faults w) (fs w) name data with
    | None =>
        (Ok tt, set_fs (<[name := default [] (fs w !! name) ++ data]> (fs w)) w)
    | Some (left_on_disk, err) =>
        (Raise (os_exn err), set_fs (<[name := left_on_disk]> (fs w)) w)
    end.

(** Closing the file named [name] when the [with] block is left. *)
Definition file_close (name : str) : M unit :=
  fun w =>
    match close_error (os_faults w) (fs w) name with
    | None => (Ok tt, w)
    | Some err => (Raise (os_exn err), w)
    end.

(** [os.unlink(path)]. *)
Definition os_unlink (path : str) : M unit :=
  fun w =>
    match unlink_error (os_faults w) (fs w) path with
    | Some err => (Raise (os_exn err), w)
    | None =>
        match fs w !! path with
        | Some _ => (Ok tt, set_fs (delete path (fs w)) w)
        | None =>
            (Raise (PyExc FileNotFoundError
                      (lit "[Errno 2] No such file or directory")), w)
        end
    end.

(** ** Request and response types *)

(** A FastAPI [UploadFile]: its [filename] and what [await audio.read()]
    does. *)
Record UploadFile := {
  upload_filename : option str;
  upload_read : result bytes
}.

(** The dict [{"start": ..., "end": ..., "text": ...}]. *)
Record SegmentDict := {
  d_start : float;
  d_end : float;
  d_text : str
}.

Record TranscriptionResult := {
  text : str;
  language : str;
  duration : float;
  segments : list SegmentDict
}.

(** The dict returned by [/transcribe-stream]. *)
Record StreamResult := {
  s_segments : list SegmentDict;
  s_language : str;
  s_duration : float
}.

Record HealthResponse := {
  status : str;
  model_loaded : bool;
  model_name : str
}.

(** Whether the framework can render a returned body: its [JSONResponse]
    calls [json.dumps] with [allow_nan=False], which raises on a float that
    is NaN or infinite. *)
Class Jsonable (A : Type) := jsonable : A → bool.

Definition finite_times (l : list SegmentDict) : bool :=
  forallb (fun d => is_finite (d_start d) && is_finite (d_end d)) l.

#[global] Instance HealthResponse_jsonable : Jsonable HealthResponse :=
  fun _ => true.

#[global] Instance TranscriptionResult_jsonable : Jsonable TranscriptionResult :=
  fun r => is_finite (duration r) && finite_times (segments r).

#[global] Instance StreamResult_jsonable : Jsonable StreamResult :=
  fun r => is_finite (s_duration r) && finite_times (s_segments r).

(** The status line FastAPI sends for the outcome of a handler: 200 for a
    returned value it can render and 500 for one it cannot, the exception's
    own code for an [HTTPException], and 500 (with no detail of the cause)
    for any other exception. *)
Definition http_status {A} `{Jsonable A} (r : result A) : Z :=
  match r with
  | Ok a => if jsonable a then 200 else 500
  | Raise (HTTPException status_code _) => status_code
  | Raise (PyExc _ _) => 500
  end.

(** ** Model holder: [load_whisper_model] and [lifespan] *)

(** Lines 47-53: the three constructor arguments read from the environment. *)
Definition load_config (w : World) : str * str * str :=
  let model_size := environ_get w (lit "WHISPER_MODEL") (lit "small") in
  let device := environ_get w (lit "WHISPER_DEVICE") (lit "cpu") in
  let compute_type := environ_get w (lit "WHISPER_COMPUTE_TYPE") (lit "int8") in
  let compute_type :=
    if decide (device = lit "cuda")
    then environ_get w (lit "WHISPER_COMPUTE_TYPE") (lit "float16")
    else compute_type in
  (model_size, device, compute_type).

(** Lines 57-67, given what the constructor call did: a constructed model
    is assigned to the global and returned; an exception of the constructor
    is swallowed and [None] returned. *)
Definition store_model (constructed : result WhisperModel)
    : M (option WhisperModel) :=
  fun w =>
    match constructed with
    | Ok model => (Ok (Some model), set_whisper_model (Some model) w)
    | Raise e => (Ok None, w)
    end.

(** Lines 37-67.  The [except ImportError] clause of line 43 catches an
    [ImportError] of the import and nothing else. *)
Definition load_whisper_model : M (option WhisperModel) :=
  fun w =>
    match faster_whisper w with
    | ImportRaised e =>
        (* except ImportError: return None *)
        if is_ImportError e then (Ok None, w) else (Raise e, w)
    | Imported WhisperModel_ =>
        let '(model_size, device, compute_type) := load_config w in
        store_model (WhisperModel_ model_size device compute_type) w
    end.

(** [lifespan], before the [yield]. *)
Definition lifespan_startup : M unit :=
  let* _ := load_whisper_model in ret tt.

(** [lifespan], after the [yield]. *)
Definition lifespan_shutdown : M unit :=
  fun w => (Ok tt, set_whisper_model None w).

(** ** [/health] *)

(** Truth value of the global: [None] is falsy, and a [WhisperModel]
    instance (the class defines neither [__bool__] nor [__len__]) is
    truthy. *)
Definition truthy (h : option WhisperModel) : bool :=
  match h with
  | Some _ => true
  | None => false
  end.

(** [whisper_model is not None]. *)
Definition is_not_None (h : option WhisperModel) : bool :=
  match h with
  | Some _ => true
  | None => false
  end.

(** Lines 99-106. *)
Definition health_check : M HealthResponse :=
  fun w =>
    let model_name := environ_get w (lit "WHISPER_MODEL") (lit "small") in
    (Ok {| status := if truthy (whisper_model w) then lit "ok"
                     else lit "model_not_loaded";
           model_loaded := is_not_None (whisper_model w);
           model_name := model_name |}, w).

(** ** [/transcribe] *)

(** The dict built at lines 154-158 (and 217-221) from one segment. *)
Definition segment_dict (segment : Segment) : SegmentDict :=
  {| d_start := seg_start segment;
     d_end := seg_end segment;
     d_text := strip (seg_text segment) |}.

(** The [for segment in segments_list] loop of lines 153-159, with its two
    accumulators threaded through. *)
Fixpoint collect (segments_list : list Segment)
    (segments : list SegmentDict) (full_text : list str)
    : list SegmentDict * list str :=
  match segments_list with
  | [] => (segments, full_text)
  | segment :: rest =>
      collect rest (segments ++ [segment_dict segment])
                   (full_text ++ [strip (seg_text segment)])
  end.

(** Running that loop on the model's lazy iterator: the iterator may raise
    after the segments it yields, which abandons the accumulators. *)
Definition for_segments (it : SegmentIter) : M (list SegmentDict * list str) :=
  let acc := collect (yielded it) [] [] in
  match raises it with
  | None => ret acc
  | Some e => raise e
  end.

(** Lines 126-137: the extension, the temporary file, and the upload
    written to it.  The result is [tmp_path].  The [except] clause covers
    the read and the write alike.  Leaving the [with] block closes the
    file, outside the [try]; the close is consulted once the body has
    returned, since after a failed read nothing has been written and a
    failed write has raised already. *)
Definition transcribe_stage (audio : UploadFile) : M str :=
  let filename := opt_or (upload_filename audio) (lit "audio.webm") in
  let ext := str_or (snd (splitext filename)) (lit ".webm") in
  let* tmp := NamedTemporaryFile ext in
  let* tmp_path :=
    try_except
      (let* content := lift (upload_read audio) in
       let* _ := file_write tmp content in
       ret tmp)
      (fun e =>
         raise (HTTPException 400 (lit "Failed to read audio: " ++ exc_str e))) in
  let* _ := file_close tmp in
  ret tmp_path.

(** Lines 120-124 and 139-179.  Between the check of the global and the
    call of the model nothing assigns the global, so the handle is bound
    once. *)
Definition transcribe (audio : UploadFile) (language : option str)
    : M TranscriptionResult :=
  let* handle := gets whisper_model in
  match handle with
  | None =>
      raise (HTTPException 503
               (lit "Whisper model not loaded. Please check server logs."))
  | Some model =>
      let* tmp_path := transcribe_stage audio in
      try_finally
        (try_except
           (let* files := gets fs in
            let* (segments_list, info) :=
              lift (model_transcribe model files tmp_path
                      {| p_language := language; beam_size := 5; best_of := 5;
                         temperature := 0; vad_filter := true |}) in
            let* (segments, full_text) := for_segments segments_list in
            let text := join [] full_text in
            ret {| text := text;
                   language := info_language info;
                   duration := info_duration info;
                   segments := segments |})
           (fun e =>
              raise (HTTPException 500 (lit "Transcription failed: " ++ exc_str e))))
        (try_except (os_unlink tmp_path) (fun _ => ret tt))
  end.

(** ** [/transcribe-stream] *)

(** The loop of lines 216-221. *)
Fixpoint collect_results (segments_list : list Segment)
    (results : list SegmentDict) : list SegmentDict :=
  match segments_list with
  | [] => results
  | segment :: rest => collect_results rest (results ++ [segment_dict segment])
  end.

Definition for_results (it : SegmentIter) : M (list SegmentDict) :=
  let acc := collect_results (yielded it) [] in
  match raises it with
  | None => ret acc
  | Some e => raise e
  end.

(** Lines 197-203: as [transcribe_stage], without the [try/except]. *)
Definition transcribe_stream_stage (audio : UploadFile) : M str :=
  let filename := opt_or (upload_filename audio) (lit "audio.webm") in
  let ext := str_or (snd (splitext filename)) (lit ".webm") in
  let* tmp := NamedTemporaryFile ext in
  let* content := lift (upload_read audio) in
  let* _ := file_write tmp content in
  let* _ := file_close tmp in
  ret tmp.

(** Lines 191-195 and 205-232: no [except] clause here, only the
    [finally]. *)
Definition transcribe_stream (audio : UploadFile) (language : option str)
    : M StreamResult :=
  let* handle := gets whisper_model in
  match handle with
  | None => raise (HTTPException 503 (lit "Whisper model not loaded"))
  | Some model =>
      let* tmp_path := transcribe_stream_stage audio in
      try_finally
        (let* files := gets fs in
         let* (segments_list, info) :=
           lift (model_transcribe model files tmp_path
                   {| p_language := language; beam_size := 3; best_of := 3;
                      temperature := 0; vad_filter := true |}) in
         let* results := for_results segments_list in
         ret {| s_segments := results;
                s_language := info_language info;
                s_duration := info_duration info |})
        (try_except (os_unlink tmp_path) (fun _ => ret tt))
  end.

(** ** Properties named by the specification *)

(** The specification's wording of the staged suffix: the extension of the
    original filename when there is one, [".webm"] when the filename is
    absent or has no extension. *)
Definition expected_ext (filename : option str) : str :=
  match filename with
  | None => lit ".webm"
  | Some name =>
      match snd (splitext name) with
      | [] => lit ".webm"
      | c :: e => c :: e
      end
  end.

(** Start times never decrease from one segment to the next. *)
Fixpoint starts_nondecreasing (l : list SegmentDict) : bool :=
  match l with
  | a :: (b :: _) as tl => PrimFloat.leb (d_start a) (d_start b) && starts_nondecreasing tl
  | _ => true
  end.

(** Every segment ends no earlier than it starts. *)
Definition ends_after_starts (l : list SegmentDict) : bool :=
  forallb (fun d => PrimFloat.leb (d_start d) (d_end d)) l.

Definition chronological (l : list SegmentDict) : bool :=
  starts_nondecreasing l && ends_after_starts l.

(** The same segments with the text dropped: what [chronological] reads. *)
Definition timing (start end_ : float) : SegmentDict :=
  {| d_start := start; d_end := end_; d_text := [] |}.

Definition model_timings (l : list Segment) : list SegmentDict :=
  map (fun s => timing (seg_start s) (seg_end s)) l.

(** The two failures of [load_whisper_model] the specification names: the
    package is missing, or the constructor raises. *)
Definition load_fails (w : World) : Prop :=
  match faster_whisper w with
  | ImportRaised e => is_ImportError e = true
  | Imported ctor =>
      let '(model_size, device, compute_type) := load_config w in
      ∃ e, ctor model_size device compute_type = Raise e
  end.

(** The decoding parameters of the two routes. *)
Definition full_params (language : option str) : DecodeParams :=
  {| p_language := language; beam_size := 5; best_of := 5;
     temperature := 0; vad_filter := true |}.

Definition stream_params (language : option str) : DecodeParams :=
  {| p_language := language; beam_size := 3; best_of := 3;
     temperature := 0; vad_filter := true |}.

(** The model invocation fails with [e]: the call raises [e], or the
    iteration over the returned segments does. *)
Definition invocation_fails (model : WhisperModel) (files : gmap str bytes)
    (path : str) (params : DecodeParams) (e : exn) : Prop :=
  model_transcribe model files path params = Raise e ∨
  ∃ it info, model_transcribe model files path params = Ok (it, info) ∧
             raises it = Some e.

(** The model invocation yields the segments of [it], to the end. *)
Definition invocation_yields (model : WhisperModel) (files : gmap str bytes)
    (path : str) (params : DecodeParams) (it : SegmentIter)
    (info : TranscriptionInfo) : Prop :=
  model_transcribe model files path params = Ok (it, info) ∧ raises it = None.

(** What staging an upload amounts to, as a relation between the state
    before, the outcome and the state after.  [shape] is what the route
    makes of an exception of the read or of the write: [/transcribe] wraps
    it in a 400 [HTTPException], [/transcribe-stream] lets it through.  An
    exception of [NamedTemporaryFile] or of the close is not shaped on
    either route. *)
Inductive staged (audio : UploadFile) (shape : exn → exn) (w : World)
    : result str → World → Prop :=
| staged_no_name e w1 :
    NamedTemporaryFile (expected_ext (upload_filename audio)) w = (Raise e, w1) →
    staged audio shape w (Raise e) w1
| staged_unread tmp w0 e :
    NamedTemporaryFile (expected_ext (upload_filename audio)) w = (Ok tmp, w0) →
    upload_read audio = Raise e →
    staged audio shape w (Raise (shape e)) w0
| staged_unwritten tmp w0 content left_on_disk err :
    NamedTemporaryFile (expected_ext (upload_filename audio)) w = (Ok tmp, w0) →
    upload_read audio = Ok content →
    write_error (os_faults w0) (fs w0) tmp content = Some (left_on_disk, err) →
    staged audio shape w (Raise (shape (os_exn err)))
      (set_fs (<[tmp := left_on_disk]> (fs w0)) w0)
| staged_unclosed tmp w0 content err :
    NamedTemporaryFile (expected_ext (upload_filename audio)) w = (Ok tmp, w0) →
    upload_read audio = Ok content →
    write_error (os_faults w0) (fs w0) tmp content = None →
    close_error (os_faults w0) (<[tmp := content]> (fs w0)) tmp = Some err →
    staged audio shape w (Raise (os_exn err))
      (set_fs (<[tmp := content]> (fs w0)) w0)
| staged_written tmp w0 content :
    NamedTemporaryFile (expected_ext (upload_filename audio)) w = (Ok tmp, w0) →
    upload_read audio = Ok content →
    write_error (os_faults w0) (fs w0) tmp content = None →
    close_error (os_faults w0) (<[tmp := content]> (fs w0)) tmp = None →
    staged audio shape w (Ok tmp) (set_fs (<[tmp := content]> (fs w0)) w0).

(** The state the [finally] block of either route leaves: the [os.unlink]
    has run and its exception, if any, has been dropped. *)
Definition after_unlink (path : str) (w : World) : World :=
  (try_except (os_unlink path) (fun _ => ret tt) w).2.

(** The operating system refuses no write, no close and no unlink. *)
Definition os_obliging (w : World) : Prop :=
  ∀ files path,
    (∀ data, write_error (os_faults w) files path data = None) ∧
    close_error (os_faults w) files path = None ∧
    unlink_error (os_faults w) files path = None.

Definition read_failure_400 (e : exn) : exn :=
  HTTPException 400 (lit "Failed to read audio: " ++ exc_str e).

Definition transcription_failure_500 (e : exn) : exn :=
  HTTPException 500 (lit "Transcription failed: " ++ exc_str e).

(** The response of [/transcribe] as a function of what the model call
    did: the trimmed segment texts concatenated, the model's language and
    duration, one dict per segment; any exception becomes the 500. *)
Definition shaped_response (called : result (SegmentIter * TranscriptionInfo))
    : result TranscriptionResult :=
  match called with
  | Ok (it, info) =>
      match raises it with
      | None =>
          Ok {| text := concat (map (fun s => strip (seg_text s)) (yielded it));
                language := info_language info;
                duration := info_duration info;
                segments := map segment_dict (yielded it) |}
      | Some e => Raise (transcription_failure_500 e)
      end
  | Raise e => Raise (transcription_failure_500 e)
  end.

(** The response of [/transcribe-stream]: exceptions pass unchanged. *)
Definition stream_response (called : result (SegmentIter * TranscriptionInfo))
    : result StreamResult :=
  match called with
  | Ok (it, info) =>
      match raises it with
      | None =>
          Ok {| s_segments := map segment_dict (yielded it);
                s_language := info_language info;
                s_duration := info_duration info |}
      | Some e => Raise e
      end
  | Raise e => Raise e
  end.

(** ** Sample processes, used to run the handlers *)

Module Sample.

Definition zh : option str := Some (lit "zh").

(* U+3000 你 好 SPACE, then "world" followed by a line feed. *)
Definition segs : list Segment :=
  [ {| seg_start := 0%float; seg_end := 1.5%float;
       seg_text := [12288; 20320; 22909; 32]%N |};
    {| seg_start := 1.5%float; seg_end := 3.25%float;
       seg_text := lit "world" ++ [10%N] |} ].

Definition info : TranscriptionInfo :=
  {| info_language := lit "zh"; info_duration := 3.25%float |}.

Definition no_such_file : exn :=
  PyExc FileNotFoundError (lit "[Errno 2] No such file or directory").

(* A model that decodes any file that exists into [segs]. *)
Definition model_of (l : list Segment) : WhisperModel :=
  {| model_transcribe files path _ :=
       match files !! path with
       | Some _ => Ok ({| yielded := l; raises := None |}, info)
       | None => Raise no_such_file
       end |}.

Definition model : WhisperModel := model_of segs.

(* A model whose decoder fails on every input. *)
Definition failing_model : WhisperModel :=
  {| model_transcribe _ _ _ := Raise (PyExc RuntimeError (lit "invalid data")) |}.

(* A model whose one segment ends before it starts. *)
Definition backwards_model : WhisperModel :=
  model_of [ {| seg_start := 2%float; seg_end := 1%float; seg_text := lit "a" |} ].

(* tempfile's name sequence: "k", "ka", "kaa", ... *)
Definition names (n : nat) : str := lit "k" ++ replicate n 97%N.

(* A system that refuses nothing. *)
Definition no_faults : OsFaults :=
  {| open_error _ _ := None; write_error _ _ _ := None;
     close_error _ _ := None; unlink_error _ _ := None |}.

Definition world_with (h : option WhisperModel) (env : gmap str str)
    (pkg : import_result) : World :=
  {| whisper_model := h; environ := env; faster_whisper := pkg;
     fs := ∅; tempdir := lit "/tmp"; tmp_names := names; tmp_seq := 0;
     os_faults := no_faults |}.

(* A constructor whose model reports the arguments it was built with. *)
Definition ctor (model_size device compute_type : str) : result WhisperModel :=
  Ok (model_of [ {| seg_start := 0%float; seg_end := 0%float;
                    seg_text := model_size ++ [32%N] ++ device ++ [32%N] ++ compute_type |} ]).

Definition installed : import_result := Imported ctor.

(* A running service. *)
Definition world : World := world_with (Some model) ∅ installed.

(* A process before start-up, or after a failed load. *)
Definition unloaded : World := world_with None ∅ installed.

Definition clip : UploadFile :=
  {| upload_filename := Some (lit "clip.mp3"); upload_read := Ok [82; 73; 70; 70]%N |}.

(* What [/transcribe] answers to [clip] on [world]. *)
Definition response : TranscriptionResult :=
  {| text := [20320; 22909]%N ++ lit "world";
     language := lit "zh";
     duration := 3.25%float;
     segments := [ {| d_start := 0%float; d_end := 1.5%float;
                      d_text := [20320; 22909]%N |};
                   {| d_start := 1.5%float; d_end := 3.25%float;
                      d_text := lit "world" |} ] |}.

(* What [/transcribe] answers to [clip] with [backwards_model]. *)
Definition backwards_response : TranscriptionResult :=
  {| text := lit "a";
     language := lit "zh";
     duration := 3.25%float;
     segments := [ {| d_start := 2%float; d_end := 1%float; d_text := lit "a" |} ] |}.

Definition backwards_stream_response : StreamResult :=
  {| s_segments := segments backwards_response;
     s_language := lit "zh";
     s_duration := 3.25%float |}.

Definition reset : exn := PyExc OSError (lit "connection reset").

(* An upload whose body cannot be read. *)
Definition broken : UploadFile :=
  {| upload_filename := Some (lit "clip.mp3"); upload_read := Raise reset |}.

(* A running service whose model returns a segment that ends before it
   starts. *)
Definition backwards : World := world_with (Some backwards_model) ∅ installed.

(* A running service whose model fails. *)
Definition failing : World := world_with (Some failing_model) ∅ installed.

(* The package is not installed. *)
Definition missing : World :=
  world_with None ∅
    (ImportRaised (PyExc ModuleNotFoundError (lit "No module named 'faster_whisper'"))).

Definition abi_error : exn :=
  PyExc ValueError (lit "numpy.dtype size changed, may indicate binary incompatibility").

(* The package is installed against an incompatible binary dependency. *)
Definition incompatible : World := world_with None ∅ (ImportRaised abi_error).

Definition on_cuda : World :=
  world_with None {[ lit "WHISPER_DEVICE" := lit "cuda" ]} installed.

Definition on_tpu : World :=
  world_with None {[ lit "WHISPER_DEVICE" := lit "tpu" ]} installed.

End Sample.

(** ** The application: its routes and its lifetime *)

(** The requests the three routes accept (the decorators of lines 98, 109
    and 182). *)
Inductive Request :=
| GetHealth
| PostTranscribe (audio : UploadFile) (language : option str)
| PostTranscribeStream (audio : UploadFile) (language : option str).

Inductive Body :=
| HealthBody (r : HealthResponse)
| TranscriptionBody (r : TranscriptionResult)
| StreamBody (r : StreamResult).

#[global] Instance Body_jsonable : Jsonable Body :=
  fun body =>
    match body with
    | HealthBody r => jsonable r
    | TranscriptionBody r => jsonable r
    | StreamBody r => jsonable r
    end.

(** The route table of [app]. *)
Definition app (req : Request) : M Body :=
  match req with
  | GetHealth =>
      let* r := health_check in ret (HealthBody r)
  | PostTranscribe audio language =>
      let* r := transcribe audio language in ret (TranscriptionBody r)
  | PostTranscribeStream audio language =>
      let* r := transcribe_stream audio language in ret (StreamBody r)
  end.

(** Requests served one after the other.  An exception of a handler is
    answered by the framework and does not stop the service. *)
Fixpoint serve (reqs : list Request) (w : World) : list (result Body) * World :=
  match reqs with
  | [] => ([], w)
  | req :: rest =>
      let '(r, w1) := app req w in
      let '(rs, w2) := serve rest w1 in
      (r :: rs, w2)
  end.

(** The lifetime of the process under [lifespan] (lines 70-78): the model
    is loaded, requests are served, the global is cleared.  An exception
    before the [yield] ends the lifetime there: nothing is served and the
    code after the [yield] does not run. *)
Definition run (reqs : list Request) (w : World)
    : option (list (result Body)) * World :=
  match lifespan_startup w with
  | (Ok _, w1) =>
      let '(rs, w2) := serve reqs w1 in
      (Some rs, (lifespan_shutdown w2).2)
  | (Raise _, w1) => (None, w1)
  end.

(** The upload of the request, if it has one, can be read. *)
Definition readable (req : Request) : bool :=
  match req with
  | GetHealth => true
  | PostTranscribe audio _ | PostTranscribeStream audio _ =>
      match upload_read audio with
      | Ok _ => true
      | Raise _ => false
      end
  end.

(** What a service without a handle answers. *)
Definition refused (w : World) (req : Request) : result Body :=
  match req with
  | GetHealth =>
      Ok (HealthBody
            {| status := lit "model_not_loaded";
               model_loaded := false;
               model_name := environ_get w (lit "WHISPER_MODEL") (lit "small") |})
  | PostTranscribe _ _ =>
      Raise (HTTPException 503
               (lit "Whisper model not loaded. Please check server logs."))
  | PostTranscribeStream _ _ =>
      Raise (HTTPException 503 (lit "Whisper model not loaded"))
  end.

(** The part of the process state that belongs to the model holder and to
    the configuration: everything but the files and the position in
    tempfile's name sequence. *)
Definition same_holder (w w' : World) : Prop :=
  whisper_model w' = whisper_model w ∧
  environ w' = environ w ∧
  faster_whisper w' = faster_whisper w ∧
  tempdir w' = tempdir w ∧
  tmp_names w' = tmp_names w ∧
  os_faults w' = os_faults w.

(** The files after a step are the files before it, or those and one new
    file. *)
Definition at_most_one_new_file (before after : gmap str bytes) : Prop :=
  after = before ∨
  ∃ tmp content, before !! tmp = None ∧ after = <[tmp := content]> before.

(** The request has an upload. *)
Definition has_upload (req : Request) : bool :=
  match req with
  | GetHealth => false
  | PostTranscribe _ _ | PostTranscribeStream _ _ => true
  end.

(** The load succeeds: the package imports and its constructor returns a
    model for the configured arguments. *)
Definition load_succeeds (w : World) : bool :=
  match faster_whisper w with
  | Imported ctor =>
      let '(model_size, device, compute_type) := load_config w in
      match ctor model_size device compute_type with
      | Ok _ => true
      | Raise _ => false
      end
  | ImportRaised _ => false
  end.

(** No whitespace at either end. *)
Definition trimmed (s : str) : bool :=
  match head s with
  | Some c => negb (isspace c)
  | None => true
  end &&
  match last s with
  | Some c => negb (isspace c)
  | None => true
  end.

(** [d] is the segment [s] with whitespace, and nothing else, taken off
    the two ends of its text. *)
Definition trimmed_copy (d : SegmentDict) (s : Segment) : Prop :=
  d_start d = seg_start s ∧ d_end d = seg_end s ∧
  trimmed (d_text d) = true ∧
  ∃ pre post, seg_text s = pre ++ d_text d ++ post ∧
              forallb isspace pre = true ∧ forallb isspace post = true.

Module Traffic.

(* Three requests with readable uploads. *)
Definition readable_requests : list Request :=
  [ PostTranscribe Sample.clip Sample.zh;
    GetHealth;
    PostTranscribeStream Sample.clip Sample.zh ].

(* The same with two requests whose upload cannot be read. *)
Definition mixed_requests : list Request :=
  [ PostTranscribe Sample.broken Sample.zh;
    PostTranscribe Sample.clip Sample.zh;
    PostTranscribeStream Sample.broken Sample.zh;
    GetHealth ].

(* A service with a file of its own in the temporary directory, whose
   name is the first one tempfile draws. *)
Definition busy : World :=
  set_fs {[ lit "/tmp/tmpk.mp3" := [1; 2; 3]%N ]} Sample.world.

(* A system that refuses to create a path holding a NUL character, and
   whose disk is full: every write fails and leaves nothing in the file. *)
Definition picky : OsFaults :=
  {| open_error _ path :=
       if decide (0%N ∈ path)
       then Some (ValueError, lit "embedded null byte") else None;
     write_error _ _ _ :=
       Some ([], (OSError, lit "[Errno 28] No space left on device"));
     close_error _ _ := None;
     unlink_error _ _ := None |}.

(* A running service on that system. *)
Definition cramped : World :=
  {| whisper_model := Some Sample.model; environ := ∅;
     faster_whisper := Sample.installed;
     fs := ∅; tempdir := lit "/tmp"; tmp_names := Sample.names; tmp_seq := 0;
     os_faults := picky |}.

(* A system on which closing a written file fails. *)
Definition unflushed : OsFaults :=
  {| open_error _ _ := None; write_error _ _ _ := None;
     close_error _ _ := Some (OSError, lit "[Errno 5] Input/output error");
     unlink_error _ _ := None |}.

(* A running service on that system. *)
Definition unsynced : World :=
  {| whisper_model := Some Sample.model; environ := ∅;
     faster_whisper := Sample.installed;
     fs := ∅; tempdir := lit "/tmp"; tmp_names := Sample.names; tmp_seq := 0;
     os_faults := unflushed |}.

(* An upload whose filename carries a NUL character in its extension. *)
Definition nul_named : UploadFile :=
  {| upload_filename := Some (lit "clip.mp" ++ [0%N]);
     upload_read := Ok [82; 73; 70; 70]%N |}.

End Traffic.

(** * Theorems *)

(** ** Model holder *)

Lemma load_calls_constructor w ctor :
  faster_whisper w = Imported ctor →
  load_whisper_model w =
    store_model (ctor (load_config w).1.1 (load_config w).1.2 (load_config w).2) w.
Proof.
  intros Hpkg. unfold load_whisper_model. rewrite Hpkg.
  by destruct (load_config w) as [[model_size device] compute_type].
Qed.

Lemma load_config_size_device w :
  (load_config w).1.1 = environ_get w (lit "WHISPER_MODEL") (lit "small") ∧
  (load_config w).1.2 = environ_get w (lit "WHISPER_DEVICE") (lit "cpu").
Proof. done. Qed.

Lemma load_config_compute_type w :
  (load_config w).2 =
    if decide (environ_get w (lit "WHISPER_DEVICE") (lit "cpu") = lit "cuda")
    then environ_get w (lit "WHISPER_COMPUTE_TYPE") (lit "float16")
    else environ_get w (lit "WHISPER_COMPUTE_TYPE") (lit "int8").
Proof. unfold load_config. by case_decide. Qed.

(** C9. With [WHISPER_COMPUTE_TYPE] unset, the model constructor is called
    with compute type ["int8"] when the device is ["cpu"] and ["float16"]
    when it is ["cuda"]; with [WHISPER_COMPUTE_TYPE] set to [v], it is called
    with [v] whatever the device. *)
Theorem compute_type_by_device w ctor
    (Hpkg : faster_whisper w = Imported ctor) :
  let model_size := environ_get w (lit "WHISPER_MODEL") (lit "small") in
  let device := environ_get w (lit "WHISPER_DEVICE") (lit "cpu") in
  (environ w !! lit "WHISPER_COMPUTE_TYPE" = None → device = lit "cpu" →
     load_whisper_model w = store_model (ctor model_size (lit "cpu") (lit "int8")) w) ∧
  (environ w !! lit "WHISPER_COMPUTE_TYPE" = None → device = lit "cuda" →
     load_whisper_model w = store_model (ctor model_size (lit "cuda") (lit "float16")) w) ∧
  (∀ v, environ w !! lit "WHISPER_COMPUTE_TYPE" = Some v →
     load_whisper_model w = store_model (ctor model_size device v) w).
Proof.
  intros model_size device.
  rewrite (load_calls_constructor w ctor Hpkg), load_config_compute_type.
  destruct (load_config_size_device w) as [-> ->].
  fold model_size device.
  repeat split.
  - intros Hunset Hdev. unfold environ_get at 1 2. rewrite Hunset, Hdev.
    by case_decide.
  - intros Hunset Hdev. unfold environ_get at 1 2. rewrite Hunset, Hdev.
    by case_decide.
  - intros v Hset. unfold environ_get at 1 2. rewrite Hset. by case_decide.
Qed.

Lemma compute_type_by_device_witness :
  load_whisper_model Sample.on_cuda =
    store_model (Sample.ctor (lit "small") (lit "cuda") (lit "float16")) Sample.on_cuda.
Proof.
  exact (proj1 (proj2 (compute_type_by_device Sample.on_cuda Sample.ctor eq_refl))
           eq_refl eq_refl).
Defined.

(** C10. The device string is not validated: whenever it is not ["cuda"],
    the compute type is read with the default ["int8"], and the device
    string itself is the constructor's second argument. *)
Theorem device_not_validated w ctor
    (Hpkg : faster_whisper w = Imported ctor)
    (Hdev : environ_get w (lit "WHISPER_DEVICE") (lit "cpu") ≠ lit "cuda") :
  load_whisper_model w =
    store_model
      (ctor (environ_get w (lit "WHISPER_MODEL") (lit "small"))
            (environ_get w (lit "WHISPER_DEVICE") (lit "cpu"))
            (environ_get w (lit "WHISPER_COMPUTE_TYPE") (lit "int8"))) w.
Proof.
  rewrite (load_calls_constructor w ctor Hpkg), load_config_compute_type.
  destruct (load_config_size_device w) as [-> ->].
  by case_decide.
Qed.

Lemma device_not_validated_witness :
  load_whisper_model Sample.on_tpu =
    store_model (Sample.ctor (lit "small") (lit "tpu") (lit "int8")) Sample.on_tpu.
Proof.
  refine (device_not_validated Sample.on_tpu Sample.ctor eq_refl _).
  vm_compute. discriminate.
Defined.

Lemma load_missing_dependency w e :
  faster_whisper w = ImportRaised e → is_ImportError e = true →
  load_whisper_model w = (Ok None, w).
Proof. intros Hpkg He. unfold load_whisper_model. by rewrite Hpkg, He. Qed.

Lemma load_constructor_raises w ctor e :
  faster_whisper w = Imported ctor →
  ctor (load_config w).1.1 (load_config w).1.2 (load_config w).2 = Raise e →
  load_whisper_model w = (Ok None, w).
Proof.
  intros Hpkg Hctor. by rewrite (load_calls_constructor w ctor Hpkg), Hctor.
Qed.

Lemma load_other_import_error w e :
  faster_whisper w = ImportRaised e → is_ImportError e = false →
  load_whisper_model w = (Raise e, w).
Proof. intros Hpkg He. unfold load_whisper_model. by rewrite Hpkg, He. Qed.

(** C8, as the code has it.  [load_whisper_model] returns to its caller
    without raising exactly when the import of [faster_whisper] succeeds or
    raises an [ImportError]; a constructor exception is swallowed.  When the
    package is missing or the constructor raises, it returns [None] and
    leaves the process state, the global handle included, as it was: absent
    at start-up.  Any other exception of the import is not caught: it
    leaves [load_whisper_model], and [lifespan] with it, as it is, with the
    state untouched. *)
Theorem load_failure_is_swallowed w :
  ((∀ e, faster_whisper w = ImportRaised e → is_ImportError e = true) ↔
   ∃ handle, (load_whisper_model w).1 = Ok handle) ∧
  (load_fails w →
     load_whisper_model w = (Ok None, w) ∧
     (whisper_model w = None → whisper_model (load_whisper_model w).2 = None)) ∧
  (∀ e, faster_whisper w = ImportRaised e → is_ImportError e = false →
     load_whisper_model w = (Raise e, w) ∧
     lifespan_startup w = (Raise e, w)).
Proof.
  split; [split|split].
  - intros Himport. unfold load_whisper_model.
    destruct (faster_whisper w) as [ctor|e] eqn:Hpkg.
    + destruct (load_config w) as [[model_size device] compute_type].
      unfold store_model. destruct (ctor _ _ _); eauto.
    + rewrite (Himport e eq_refl). eauto.
  - intros [handle Hok] e Hpkg.
    destruct (is_ImportError e) eqn:He; [done|].
    by rewrite (load_other_import_error w e Hpkg He) in Hok.
  - unfold load_fails. intros Hfail.
    assert (load_whisper_model w = (Ok None, w)) as Hload.
    { destruct (faster_whisper w) as [ctor|e] eqn:Hpkg.
      - destruct (load_config w) as [[model_size device] compute_type] eqn:Hcfg.
        destruct Hfail as [e He].
        apply (load_constructor_raises w ctor e Hpkg). by rewrite Hcfg.
      - by apply (load_missing_dependency w e). }
    by rewrite Hload.
  - intros e Hpkg He. unfold lifespan_startup, bind.
    by rewrite (load_other_import_error w e Hpkg He).
Qed.

Lemma load_failure_is_swallowed_witness :
  load_whisper_model Sample.missing = (Ok None, Sample.missing).
Proof.
  refine (proj1 (proj1 (proj2 (load_failure_is_swallowed Sample.missing)) _)).
  reflexivity.
Defined.

(** C8, as the claim states it, fails: an import that raises anything but an
    [ImportError] is not caught, and the exception reaches the caller. *)
Lemma load_whisper_model_can_raise :
  (load_whisper_model Sample.incompatible).1 = Raise Sample.abi_error ∧
  (lifespan_startup Sample.incompatible).1 = Raise Sample.abi_error.
Proof. split; reflexivity. Qed.

(** ** [/health] *)


(** ** The absent handle *)

Lemma transcribe_absent w audio language :
  whisper_model w = None →
  transcribe audio language w =
    (Raise (HTTPException 503
              (lit "Whisper model not loaded. Please check server logs.")), w).
Proof. intros Habsent. unfold transcribe, bind, gets, raise. by rewrite Habsent. Qed.

Lemma transcribe_stream_absent w audio language :
  whisper_model w = None →
  transcribe_stream audio language w =
    (Raise (HTTPException 503 (lit "Whisper model not loaded")), w).
Proof.
  intros Habsent. unfold transcribe_stream, bind, gets, raise. by rewrite Habsent.
Qed.

(** C3. With the handle absent, both transcription routes raise the 503
    [HTTPException] and leave the process state untouched: no temporary
    name is drawn and no file is created or written. *)
Theorem absent_handle_is_503 w audio language
    (Habsent : whisper_model w = None) :
  transcribe audio language w =
    (Raise (HTTPException 503
              (lit "Whisper model not loaded. Please check server logs.")), w) ∧
  transcribe_stream audio language w =
    (Raise (HTTPException 503 (lit "Whisper model not loaded")), w) ∧
  http_status (transcribe audio language w).1 = 503%Z ∧
  http_status (transcribe_stream audio language w).1 = 503%Z ∧
  fs (transcribe audio language w).2 = fs w ∧
  fs (transcribe_stream audio language w).2 = fs w.
Proof.
  rewrite (transcribe_absent w audio language Habsent).
  rewrite (transcribe_stream_absent w audio language Habsent).
  repeat split.
Qed.

Lemma absent_handle_is_503_witness :
  transcribe Sample.clip Sample.zh Sample.unloaded =
    (Raise (HTTPException 503
              (lit "Whisper model not loaded. Please check server logs.")),
     Sample.unloaded).
Proof.
  exact (proj1 (absent_handle_is_503 Sample.unloaded Sample.clip Sample.zh eq_refl)).
Defined.

(** ** Staging the upload *)

Lemma path_join_suffix a b : b `suffix_of` path_join a b.
Proof.
  unfold path_join. destruct b as [|c b].
  - apply suffix_nil.
  - destruct (c =? sep)%N; [done|].
    destruct (last a) as [z|]; [|done].
    destruct (z =? sep)%N.
    + by apply suffix_app_r.
    + by apply suffix_app_r, suffix_app_r.
Qed.

Lemma mkstemp_inner_Ok n dir pre suf names seq files faults file seq' :
  mkstemp_inner n dir pre suf names seq files faults = (Ok file, seq') →
  files !! file = None ∧ suf `suffix_of` file.
Proof.
  revert seq. induction n as [|n IH]; intros seq; simpl; [done|].
  destruct (files !! path_join dir (pre ++ names seq ++ suf)) eqn:Hfile;
    [apply IH|].
  destruct (open_error faults files _) as [[cls msg]|].
  - destruct cls; try done. apply IH.
  - intros [= <- <-]. split; [done|].
    etrans; [|apply path_join_suffix].
    by apply suffix_app_r, suffix_app_r.
Qed.

Lemma mkstemp_inner_Raise n dir pre suf names seq files faults e seq' :
  mkstemp_inner n dir pre suf names seq files faults = (Raise e, seq') →
  ∃ cls msg, e = PyExc cls msg.
Proof.
  revert seq. induction n as [|n IH]; intros seq; simpl.
  - intros [= <- _]. by eexists _, _.
  - destruct (files !! path_join dir (pre ++ names seq ++ suf)); [apply IH|].
    destruct (open_error faults files _) as [[cls msg]|]; [|done].
    destruct cls; try apply IH; intros [= <- _]; by eexists _, _.
Qed.

Lemma NamedTemporaryFile_Ok suffix w name w1 :
  NamedTemporaryFile suffix w = (Ok name, w1) →
  fs w !! name = None ∧ suffix `suffix_of` name ∧
  fs w1 = <[name := []]> (fs w) ∧ whisper_model w1 = whisper_model w.
Proof.
  unfold NamedTemporaryFile.
  destruct (mkstemp_inner _ _ _ _ _ _ _ _) as [[file|e] seq] eqn:Hmk; [|done].
  intros [= <- <-]. by destruct (mkstemp_inner_Ok _ _ _ _ _ _ _ _ _ _ Hmk).
Qed.

Lemma NamedTemporaryFile_Raise suffix w e w1 :
  NamedTemporaryFile suffix w = (Raise e, w1) →
  fs w1 = fs w ∧ whisper_model w1 = whisper_model w.
Proof.
  unfold NamedTemporaryFile.
  destruct (mkstemp_inner _ _ _ _ _ _ _ _) as [[file|e'] seq]; [done|].
  by intros [= <- <-].
Qed.

Lemma NamedTemporaryFile_Raise_exn suffix w e w1 :
  NamedTemporaryFile suffix w = (Raise e, w1) → ∃ cls msg, e = PyExc cls msg.
Proof.
  unfold NamedTemporaryFile.
  destruct (mkstemp_inner _ _ _ _ _ _ _ _) as [[file|e'] seq] eqn:Hmk; [done|].
  intros [= <- _]. by eapply mkstemp_inner_Raise.
Qed.

Lemma same_holder_refl w : same_holder w w.
Proof. by repeat split. Qed.

Lemma same_holder_trans w1 w2 w3 :
  same_holder w1 w2 → same_holder w2 w3 → same_holder w1 w3.
Proof.
  intros (H1 & H2 & H3 & H4 & H5 & H6) (K1 & K2 & K3 & K4 & K5 & K6).
  repeat split; congruence.
Qed.

Lemma same_holder_set_fs files w : same_holder w (set_fs files w).
Proof. by repeat split. Qed.

Lemma NamedTemporaryFile_holder suffix w :
  same_holder w (NamedTemporaryFile suffix w).2.
Proof.
  unfold NamedTemporaryFile.
  by destruct (mkstemp_inner _ _ _ _ _ _ _ _) as [[file|e] seq].
Qed.

(** Lines 127-128 (and 197-198) compute the suffix the specification
    describes. *)
Lemma staging_ext filename :
  str_or (splitext (opt_or filename (lit "audio.webm"))).2 (lit ".webm") =
  expected_ext filename.
Proof.
  destruct filename as [[|c name]|]; [done| |done].
  simpl. by destruct (splitext (c :: name)).2.
Qed.

(** Writing to the file [NamedTemporaryFile] has just created. *)
Lemma file_write_new tmp content w w0 :
  fs w0 = <[tmp := []]> (fs w) →
  file_write tmp content w0 =
    match write_error (os_faults w0) (fs w0) tmp content with
    | None => (Ok tt, set_fs (<[tmp := content]> (fs w0)) w0)
    | Some (left_on_disk, err) =>
        (Raise (os_exn err), set_fs (<[tmp := left_on_disk]> (fs w0)) w0)
    end.
Proof.
  intros Hfs. unfold file_write.
  destruct (write_error _ _ _ _) as [[left_on_disk err]|]; [done|].
  by rewrite Hfs, lookup_insert_eq.
Qed.

Lemma transcribe_stage_outcome audio w r w1 :
  transcribe_stage audio w = (r, w1) → staged audio read_failure_400 w r w1.
Proof.
  unfold transcribe_stage, bind, try_except, lift, ret, raise, file_close.
  rewrite staging_ext.
  destruct (NamedTemporaryFile _ w) as [[tmp|e] w0] eqn:Htmp;
    [|intros [= <- <-]; by apply staged_no_name].
  destruct (NamedTemporaryFile_Ok _ _ _ _ Htmp) as (_ & _ & Hfs & _).
  destruct (upload_read audio) as [content|e] eqn:Hread;
    [|intros [= <- <-]; by eapply (staged_unread _ read_failure_400)].
  rewrite (file_write_new tmp content w w0 Hfs).
  destruct (write_error _ _ _ _) as [[left_on_disk err]|] eqn:Hwrite;
    [intros [= <- <-]; by eapply (staged_unwritten _ read_failure_400)|].
  simpl. destruct (close_error _ _ _) as [err|] eqn:Hclose; intros [= <- <-].
  - by eapply staged_unclosed.
  - by eapply staged_written.
Qed.

Lemma transcribe_stage_staged audio w :
  staged audio read_failure_400 w
    (transcribe_stage audio w).1 (transcribe_stage audio w).2.
Proof. apply transcribe_stage_outcome. by destruct (transcribe_stage audio w). Qed.

Lemma transcribe_stream_stage_outcome audio w r w1 :
  transcribe_stream_stage audio w = (r, w1) → staged audio id w r w1.
Proof.
  unfold transcribe_stream_stage, bind, lift, ret, file_close.
  rewrite staging_ext.
  destruct (NamedTemporaryFile _ w) as [[tmp|e] w0] eqn:Htmp;
    [|intros [= <- <-]; by apply staged_no_name].
  destruct (NamedTemporaryFile_Ok _ _ _ _ Htmp) as (_ & _ & Hfs & _).
  destruct (upload_read audio) as [content|e] eqn:Hread;
    [|intros [= <- <-]; by eapply (staged_unread _ id)].
  rewrite (file_write_new tmp content w w0 Hfs).
  destruct (write_error _ _ _ _) as [[left_on_disk err]|] eqn:Hwrite;
    [intros [= <- <-]; by eapply (staged_unwritten _ id)|].
  simpl. destruct (close_error _ _ _) as [err|] eqn:Hclose; intros [= <- <-].
  - by eapply staged_unclosed.
  - by eapply staged_written.
Qed.

Lemma transcribe_stream_stage_staged audio w :
  staged audio id w
    (transcribe_stream_stage audio w).1 (transcribe_stream_stage audio w).2.
Proof.
  apply transcribe_stream_stage_outcome.
  by destruct (transcribe_stream_stage audio w).
Qed.

Lemma staged_holder audio shape w r w1 :
  staged audio shape w r w1 → same_holder w w1.
Proof.
  intros Hst.
  assert (∀ tmp w0,
            NamedTemporaryFile (expected_ext (upload_filename audio)) w
              = (tmp, w0) → same_holder w w0) as Hh.
  { intros tmp w0 Htmp.
    pose proof (NamedTemporaryFile_holder
                  (expected_ext (upload_filename audio)) w) as Hh.
    by rewrite Htmp in Hh. }
  destruct Hst as [e w1 Htmp|tmp w0 e Htmp _|tmp w0 content c err Htmp _ _
                  |tmp w0 content err Htmp _ _ _|tmp w0 content Htmp _ _ _];
    try (by eapply Hh);
    (eapply same_holder_trans; [by eapply Hh|apply same_holder_set_fs]).
Qed.

(** After a staging that got as far as creating its file, the files are
    those before it and that one file. *)
Lemma staged_files audio shape w r w1 :
  staged audio shape w r w1 →
  fs w1 = fs w ∨
  ∃ tmp content, fs w !! tmp = None ∧
    expected_ext (upload_filename audio) `suffix_of` tmp ∧
    fs w1 = <[tmp := content]> (fs w).
Proof.
  intros [e w' Htmp|tmp w0 e Htmp _|tmp w0 content c err Htmp _ _
         |tmp w0 content err Htmp _ _ _|tmp w0 content Htmp _ _ _].
  - left. by destruct (NamedTemporaryFile_Raise _ _ _ _ Htmp).
  - right. destruct (NamedTemporaryFile_Ok _ _ _ _ Htmp) as (Hnew & Hsuf & Hfs & _).
    by exists tmp, [].
  - right. destruct (NamedTemporaryFile_Ok _ _ _ _ Htmp) as (Hnew & Hsuf & Hfs & _).
    exists tmp, c. simpl. by rewrite Hfs, insert_insert_eq.
  - right. destruct (NamedTemporaryFile_Ok _ _ _ _ Htmp) as (Hnew & Hsuf & Hfs & _).
    exists tmp, content. simpl. by rewrite Hfs, insert_insert_eq.
  - right. destruct (NamedTemporaryFile_Ok _ _ _ _ Htmp) as (Hnew & Hsuf & Hfs & _).
    exists tmp, content. simpl. by rewrite Hfs, insert_insert_eq.
Qed.

(** Whatever the outcome, a file that staging adds carries the suffix. *)
Lemma staged_new_file audio shape w r w1 p :
  staged audio shape w r w1 →
  fs w !! p = None → is_Some (fs w1 !! p) →
  expected_ext (upload_filename audio) `suffix_of` p.
Proof.
  intros Hst Hnew Hp.
  destruct (staged_files _ _ _ _ _ Hst) as [Hfs|(tmp & c & _ & Hsuf & Hfs)];
    rewrite Hfs in Hp.
  - rewrite Hnew in Hp. by destruct Hp.
  - destruct (decide (tmp = p)) as [<-|Hne]; [done|].
    rewrite lookup_insert_ne, Hnew in Hp by done. by destruct Hp.
Qed.

(** A staged file exists, was not there before, carries the suffix, holds
    the upload, and removing it restores the files as they were. *)
Lemma staged_Ok_inv audio shape w tmp w1 :
  staged audio shape w (Ok tmp) w1 →
  ∃ content, upload_read audio = Ok content ∧
    fs w !! tmp = None ∧
    fs w1 = <[tmp := content]> (fs w) ∧
    delete tmp (fs w1) = fs w ∧
    whisper_model w1 = whisper_model w.
Proof.
  inversion 1 as [| | | |tmp' w0 content Htmp Hread Hwrite Hclose]; subst.
  destruct (NamedTemporaryFile_Ok _ _ _ _ Htmp) as (Hnew & _ & Hfs & Hmodel).
  exists content. simpl. rewrite Hfs, insert_insert_eq.
  repeat split; try done.
  by rewrite delete_insert_eq, delete_id.
Qed.

Lemma staged_Ok_suffix audio shape w tmp w1 :
  staged audio shape w (Ok tmp) w1 →
  expected_ext (upload_filename audio) `suffix_of` tmp.
Proof.
  inversion 1 as [| | | |tmp' w0 content Htmp Hread Hwrite Hclose]; subst.
  by destruct (NamedTemporaryFile_Ok _ _ _ _ Htmp) as (_ & Hsuf & _).
Qed.

(** Once the temporary file exists, it is on disk after the staging,
    however the staging ends. *)
Lemma staged_created audio shape w r w1 tmp w0 :
  staged audio shape w r w1 →
  NamedTemporaryFile (expected_ext (upload_filename audio)) w = (Ok tmp, w0) →
  is_Some (fs w1 !! tmp).
Proof.
  intros Hst Htmp.
  destruct (NamedTemporaryFile_Ok _ _ _ _ Htmp) as (_ & _ & Hfs & _).
  destruct Hst as [e w1 Htmp'|tmp' w0' e Htmp' _|tmp' w0' content c err Htmp' _ _
                  |tmp' w0' content err Htmp' _ _ _|tmp' w0' content Htmp' _ _ _];
    rewrite Htmp in Htmp'; try done; injection Htmp' as <- <-; simpl;
    rewrite ?Hfs, ?lookup_insert_eq; by eexists.
Qed.

(** C6. On either route, the path a staging returns ends with the extension
    of the uploaded filename, or with [".webm"] when the filename is absent,
    empty or without extension; that path names a file that did not exist
    before and holds the upload.  Whenever a temporary file with that suffix
    can be created, the staging leaves that file on disk, and whatever the
    outcome of the read or the write, a file the staging adds has the
    suffix.  ["clip.mp3"] gives [".mp3"]. *)
Theorem staged_suffix_is_extension w audio :
  (∀ tmp w1,
     transcribe_stage audio w = (Ok tmp, w1) ∨
     transcribe_stream_stage audio w = (Ok tmp, w1) →
     expected_ext (upload_filename audio) `suffix_of` tmp ∧
     fs w !! tmp = None ∧
     ∃ content, upload_read audio = Ok content ∧ fs w1 !! tmp = Some content) ∧
  (∀ tmp w0,
     NamedTemporaryFile (expected_ext (upload_filename audio)) w = (Ok tmp, w0) →
     expected_ext (upload_filename audio) `suffix_of` tmp ∧
     is_Some (fs (transcribe_stage audio w).2 !! tmp) ∧
     is_Some (fs (transcribe_stream_stage audio w).2 !! tmp)) ∧
  (∀ p, fs w !! p = None →
     is_Some (fs (transcribe_stage audio w).2 !! p) ∨
     is_Some (fs (transcribe_stream_stage audio w).2 !! p) →
     expected_ext (upload_filename audio) `suffix_of` p) ∧
  expected_ext (Some (lit "clip.mp3")) = lit ".mp3" ∧
  expected_ext (Some (lit "clip")) = lit ".webm" ∧
  expected_ext (Some []) = lit ".webm" ∧
  expected_ext None = lit ".webm".
Proof.
  pose proof (transcribe_stage_staged audio w) as Hst.
  pose proof (transcribe_stream_stage_staged audio w) as Hsst.
  split; [|split; [|split; [|by vm_compute]]].
  - intros tmp w1 [Hstage|Hstage]; rewrite Hstage in *; simpl in *.
    + destruct (staged_Ok_inv _ _ _ _ _ Hst) as (content & Hread & Hnew & Hfs & _).
      split; [by eapply staged_Ok_suffix|]. split; [done|].
      exists content. by rewrite Hfs, lookup_insert_eq.
    + destruct (staged_Ok_inv _ _ _ _ _ Hsst) as (content & Hread & Hnew & Hfs & _).
      split; [by eapply staged_Ok_suffix|]. split; [done|].
      exists content. by rewrite Hfs, lookup_insert_eq.
  - intros tmp w0 Htmp.
    split; [by destruct (NamedTemporaryFile_Ok _ _ _ _ Htmp) as (_ & Hsuf & _)|].
    split.
    + exact (staged_created _ _ _ _ _ _ _ Hst Htmp).
    + exact (staged_created _ _ _ _ _ _ _ Hsst Htmp).
  - intros p Hnew [Hp|Hp].
    + exact (staged_new_file _ _ _ _ _ _ Hst Hnew Hp).
    + exact (staged_new_file _ _ _ _ _ _ Hsst Hnew Hp).
Qed.

Lemma staged_suffix_is_extension_witness :
  lit ".mp3" `suffix_of` lit "/tmp/tmpk.mp3" ∧
  fs Sample.world !! lit "/tmp/tmpk.mp3" = None ∧
  ∃ content, upload_read Sample.clip = Ok content ∧
    fs (transcribe_stage Sample.clip Sample.world).2 !! lit "/tmp/tmpk.mp3"
      = Some content.
Proof.
  refine (proj1 (staged_suffix_is_extension Sample.world Sample.clip)
            (lit "/tmp/tmpk.mp3")
            (transcribe_stage Sample.clip Sample.world).2 _).
  left. vm_compute. reflexivity.
Defined.

(** ** The two loops *)

Lemma collect_spec segments_list segments full_text :
  collect segments_list segments full_text =
    (segments ++ map segment_dict segments_list,
     full_text ++ map (fun s => strip (seg_text s)) segments_list).
Proof.
  revert segments full_text.
  induction segments_list as [|segment rest IH]; intros segments full_text; simpl.
  - by rewrite !app_nil_r.
  - by rewrite IH, <- !app_assoc.
Qed.

Lemma collect_results_spec segments_list results :
  collect_results segments_list results = results ++ map segment_dict segments_list.
Proof.
  revert results. induction segments_list as [|segment rest IH]; intros results; simpl.
  - by rewrite app_nil_r.
  - by rewrite IH, <- app_assoc.
Qed.

Lemma join_empty_sep parts : join [] parts = concat parts.
Proof.
  induction parts as [|p rest IH]; [done|].
  simpl. rewrite <- IH. destruct rest; [by rewrite app_nil_r|done].
Qed.

Lemma segment_dict_text l :
  map d_text (map segment_dict l) = map (fun s => strip (seg_text s)) l.
Proof. by rewrite map_map. Qed.

(** ** Running the handlers *)

Lemma cleanup_returns tmp w :
  try_except (os_unlink tmp) (fun _ => ret tt) w = (Ok tt, after_unlink tmp w).
Proof.
  unfold after_unlink, try_except, os_unlink, ret.
  destruct (unlink_error _ _ _); [done|]. by destruct (fs w !! tmp).
Qed.

Lemma after_unlink_holder tmp w : same_holder w (after_unlink tmp w).
Proof.
  unfold after_unlink, try_except, os_unlink, ret.
  destruct (unlink_error _ _ _); [apply same_holder_refl|].
  destruct (fs w !! tmp); [apply same_holder_set_fs|apply same_holder_refl].
Qed.

(** The [finally] block removes the staged file or leaves the files alone. *)
Lemma after_unlink_files tmp w :
  fs (after_unlink tmp w) = delete tmp (fs w) ∨ fs (after_unlink tmp w) = fs w.
Proof.
  unfold after_unlink, try_except, os_unlink, ret.
  destruct (unlink_error _ _ _); [by right|].
  destruct (fs w !! tmp); [by left|by right].
Qed.

Lemma after_unlink_removes tmp w :
  unlink_error (os_faults w) (fs w) tmp = None →
  fs (after_unlink tmp w) = delete tmp (fs w).
Proof.
  intros Hunlink. unfold after_unlink, try_except, os_unlink, ret.
  rewrite Hunlink. destruct (fs w !! tmp) eqn:Hfile; [done|].
  simpl. by rewrite delete_id.
Qed.

Lemma transcribe_stage_fails w audio language model e w1 :
  whisper_model w = Some model →
  transcribe_stage audio w = (Raise e, w1) →
  transcribe audio language w = (Raise e, w1).
Proof.
  intros Hmodel Hstage. unfold transcribe, bind, gets. by rewrite Hmodel, Hstage.
Qed.

Lemma transcribe_stream_stage_fails w audio language model e w1 :
  whisper_model w = Some model →
  transcribe_stream_stage audio w = (Raise e, w1) →
  transcribe_stream audio language w = (Raise e, w1).
Proof.
  intros Hmodel Hstage. unfold transcribe_stream, bind, gets.
  by rewrite Hmodel, Hstage.
Qed.

Lemma try_finally_cleanup {A} (body : M A) tmp w r w' :
  body w = (r, w') →
  try_finally body (try_except (os_unlink tmp) (fun _ => ret tt)) w =
    (r, after_unlink tmp w').
Proof.
  intros Hbody. unfold try_finally.
  by rewrite Hbody, (cleanup_returns tmp w').
Qed.

Lemma transcribe_run w audio language model tmp w1 :
  whisper_model w = Some model →
  transcribe_stage audio w = (Ok tmp, w1) →
  transcribe audio language w =
    (shaped_response (model_transcribe model (fs w1) tmp (full_params language)),
     after_unlink tmp w1).
Proof.
  intros Hmodel Hstage.
  unfold transcribe, bind at 1, gets at 1. rewrite Hmodel.
  unfold bind at 1. rewrite Hstage.
  apply try_finally_cleanup.
  unfold try_except, bind at 1, gets, bind at 1, lift.
  fold (full_params language).
  destruct (model_transcribe model (fs w1) tmp (full_params language))
    as [[it info]|e]; [|done].
  unfold bind, for_segments, shaped_response. rewrite collect_spec.
  destruct (raises it) as [e|]; [done|].
  unfold ret. cbn [app]. by rewrite join_empty_sep.
Qed.

Lemma transcribe_stream_run w audio language model tmp w1 :
  whisper_model w = Some model →
  transcribe_stream_stage audio w = (Ok tmp, w1) →
  transcribe_stream audio language w =
    (stream_response (model_transcribe model (fs w1) tmp (stream_params language)),
     after_unlink tmp w1).
Proof.
  intros Hmodel Hstage.
  unfold transcribe_stream, bind at 1, gets at 1. rewrite Hmodel.
  unfold bind at 1. rewrite Hstage.
  apply try_finally_cleanup.
  unfold bind at 1, gets, bind at 1, lift.
  fold (stream_params language).
  destruct (model_transcribe model (fs w1) tmp (stream_params language))
    as [[it info]|e]; [|done].
  unfold bind, for_results, stream_response. rewrite collect_results_spec.
  by destruct (raises it) as [e|].
Qed.

Lemma transcribe_Ok_inv w audio language r w' :
  transcribe audio language w = (Ok r, w') →
  ∃ model tmp w1 it info,
    whisper_model w = Some model ∧
    transcribe_stage audio w = (Ok tmp, w1) ∧
    invocation_yields model (fs w1) tmp (full_params language) it info ∧
    r = {| text := concat (map (fun s => strip (seg_text s)) (yielded it));
           language := info_language info;
           duration := info_duration info;
           segments := map segment_dict (yielded it) |} ∧
    w' = after_unlink tmp w1.
Proof.
  intros Hok.
  destruct (whisper_model w) as [model|] eqn:Hmodel;
    [|by rewrite (transcribe_absent w audio language Hmodel) in Hok].
  destruct (transcribe_stage audio w) as [[tmp|e] w1] eqn:Hstage.
  - rewrite (transcribe_run w audio language model tmp w1 Hmodel Hstage) in Hok.
    injection Hok as Hr <-. unfold shaped_response in Hr.
    destruct (model_transcribe model (fs w1) tmp (full_params language))
      as [[it info]|e] eqn:Hcall; [|done].
    destruct (raises it) as [e|] eqn:Hraises; [done|].
    injection Hr as <-. by exists model, tmp, w1, it, info.
  - by rewrite (transcribe_stage_fails w audio language model e w1) in Hok.
Qed.

Lemma transcribe_stream_Ok_inv w audio language r w' :
  transcribe_stream audio language w = (Ok r, w') →
  ∃ model tmp w1 it info,
    whisper_model w = Some model ∧
    transcribe_stream_stage audio w = (Ok tmp, w1) ∧
    invocation_yields model (fs w1) tmp (stream_params language) it info ∧
    r = {| s_segments := map segment_dict (yielded it);
           s_language := info_language info;
           s_duration := info_duration info |} ∧
    w' = after_unlink tmp w1.
Proof.
  intros Hok.
  destruct (whisper_model w) as [model|] eqn:Hmodel;
    [|by rewrite (transcribe_stream_absent w audio language Hmodel) in Hok].
  destruct (transcribe_stream_stage audio w) as [[tmp|e] w1] eqn:Hstage.
  - rewrite (transcribe_stream_run w audio language model tmp w1 Hmodel Hstage)
      in Hok.
    injection Hok as Hr <-. unfold stream_response in Hr.
    destruct (model_transcribe model (fs w1) tmp (stream_params language))
      as [[it info]|e] eqn:Hcall; [|done].
    destruct (raises it) as [e|] eqn:Hraises; [done|].
    injection Hr as <-. by exists model, tmp, w1, it, info.
  - by rewrite (transcribe_stream_stage_fails w audio language model e w1) in Hok.
Qed.

(** ** The response of [/transcribe] *)

(** C2. In a successful [/transcribe] response the [text] is the
    concatenation, in order and with nothing in between, of the [text] of
    the segments of the response, and these are the whitespace-trimmed
    texts of the segments the model yielded, in the order it yielded them. *)
Theorem text_is_concatenation w audio language r w'
    (Hok : transcribe audio language w = (Ok r, w')) :
  text r = concat (map d_text (segments r)) ∧
  ∃ model files tmp it info,
    whisper_model w = Some model ∧
    invocation_yields model files tmp (full_params language) it info ∧
    map d_text (segments r) = map (fun s => strip (seg_text s)) (yielded it) ∧
    text r = concat (map (fun s => strip (seg_text s)) (yielded it)).
Proof.
  destruct (transcribe_Ok_inv _ _ _ _ _ Hok)
    as (model & tmp & w1 & it & info & Hmodel & _ & Hcall & -> & _).
  simpl. rewrite segment_dict_text. split; [done|].
  by exists model, (fs w1), tmp, it, info.
Qed.

Lemma text_is_concatenation_witness :
  text Sample.response = concat (map d_text (segments Sample.response)).
Proof.
  refine (proj1 (text_is_concatenation Sample.world Sample.clip Sample.zh
                   Sample.response
                   (transcribe Sample.clip Sample.zh Sample.world).2 _)).
  vm_compute. reflexivity.
Defined.

(** ** Error responses *)

Lemma transcribe_stage_unread w audio tmp w0 e :
  NamedTemporaryFile (expected_ext (upload_filename audio)) w = (Ok tmp, w0) →
  upload_read audio = Raise e →
  transcribe_stage audio w = (Raise (read_failure_400 e), w0).
Proof.
  intros Htmp Hread. unfold transcribe_stage, bind at 1. rewrite staging_ext, Htmp.
  unfold bind, try_except, lift. by rewrite Hread.
Qed.

Lemma transcribe_stream_stage_unread w audio tmp w0 e :
  NamedTemporaryFile (expected_ext (upload_filename audio)) w = (Ok tmp, w0) →
  upload_read audio = Raise e →
  transcribe_stream_stage audio w = (Raise e, w0).
Proof.
  intros Htmp Hread. unfold transcribe_stream_stage, bind at 1.
  rewrite staging_ext, Htmp. unfold bind, lift. by rewrite Hread.
Qed.

Lemma transcribe_stream_stage_no_name w audio e w1 :
  NamedTemporaryFile (expected_ext (upload_filename audio)) w = (Raise e, w1) →
  transcribe_stream_stage audio w = (Raise e, w1).
Proof.
  intros Htmp. unfold transcribe_stream_stage, bind at 1.
  by rewrite staging_ext, Htmp.
Qed.

Lemma shaped_response_fails model files tmp params e :
  invocation_fails model files tmp params e →
  shaped_response (model_transcribe model files tmp params) =
    Raise (transcription_failure_500 e).
Proof.
  unfold shaped_response. intros [->|(it & info & -> & ->)]; done.
Qed.

Lemma stream_response_fails model files tmp params e :
  invocation_fails model files tmp params e →
  stream_response (model_transcribe model files tmp params) = Raise e.
Proof.
  unfold stream_response. intros [->|(it & info & -> & ->)]; done.
Qed.

(** C4. With the handle present: on [/transcribe], an exception [e] of the
    upload read (which starts once the temporary file exists) gives the 400
    [HTTPException] whose detail ends with the text of [e], and an
    exception [e] of the model invocation (of the call or of the iteration
    over its segments) gives the 500 [HTTPException] whose detail ends with
    the text of [e]; on [/transcribe-stream] the same exceptions, and a
    failure to create the temporary file, leave the handler as they are,
    which the framework answers with a bare 500. *)
Theorem error_shapes w audio language model
    (Hmodel : whisper_model w = Some model) :
  (∀ tmp w0 e,
     NamedTemporaryFile (expected_ext (upload_filename audio)) w = (Ok tmp, w0) →
     upload_read audio = Raise e →
     (transcribe audio language w).1 =
       Raise (HTTPException 400 (lit "Failed to read audio: " ++ exc_str e)) ∧
     (transcribe_stream audio language w).1 = Raise e) ∧
  (∀ tmp w1 e,
     transcribe_stage audio w = (Ok tmp, w1) →
     invocation_fails model (fs w1) tmp (full_params language) e →
     (transcribe audio language w).1 =
       Raise (HTTPException 500 (lit "Transcription failed: " ++ exc_str e))) ∧
  (∀ tmp w1 e,
     transcribe_stream_stage audio w = (Ok tmp, w1) →
     invocation_fails model (fs w1) tmp (stream_params language) e →
     (transcribe_stream audio language w).1 = Raise e) ∧
  (∀ e w1,
     NamedTemporaryFile (expected_ext (upload_filename audio)) w = (Raise e, w1) →
     (transcribe_stream audio language w).1 = Raise e) ∧
  (∀ cls msg,
     (transcribe_stream audio language w).1 = Raise (PyExc cls msg) →
     http_status (transcribe_stream audio language w).1 = 500%Z).
Proof.
  split; [|split; [|split; [|split]]].
  - intros tmp w0 e Htmp Hread. split.
    + by rewrite (transcribe_stage_fails w audio language model _ w0
                    Hmodel (transcribe_stage_unread _ _ _ _ _ Htmp Hread)).
    + by rewrite (transcribe_stream_stage_fails w audio language model _ w0
                    Hmodel (transcribe_stream_stage_unread _ _ _ _ _ Htmp Hread)).
  - intros tmp w1 e Hstage Hfail.
    rewrite (transcribe_run w audio language model tmp w1 Hmodel Hstage).
    simpl. by rewrite (shaped_response_fails _ _ _ _ _ Hfail).
  - intros tmp w1 e Hstage Hfail.
    rewrite (transcribe_stream_run w audio language model tmp w1 Hmodel Hstage).
    simpl. by rewrite (stream_response_fails _ _ _ _ _ Hfail).
  - intros e w1 Htmp.
    by rewrite (transcribe_stream_stage_fails w audio language model _ w1
                  Hmodel (transcribe_stream_stage_no_name _ _ _ _ Htmp)).
  - intros cls msg ->. done.
Qed.

Lemma error_shapes_witness :
  (transcribe Sample.broken Sample.zh Sample.world).1 =
    Raise (HTTPException 400 (lit "Failed to read audio: connection reset")) ∧
  (transcribe_stream Sample.broken Sample.zh Sample.world).1 = Raise Sample.reset.
Proof.
  refine (proj1 (error_shapes Sample.world Sample.broken Sample.zh Sample.model
                   eq_refl)
            (lit "/tmp/tmpk.mp3")
            (NamedTemporaryFile (lit ".mp3") Sample.world).2 Sample.reset _ eq_refl).
  vm_compute. reflexivity.
Defined.

(** ** Segment times *)

Lemma starts_follow_model l :
  starts_nondecreasing (map segment_dict l) = starts_nondecreasing (model_timings l).
Proof.
  induction l as [|a l IH]; [done|].
  destruct l as [|b l]; [done|].
  change (PrimFloat.leb (seg_start a) (seg_start b) &&
            starts_nondecreasing (map segment_dict (b :: l)) =
          PrimFloat.leb (seg_start a) (seg_start b) &&
            starts_nondecreasing (model_timings (b :: l))).
  by rewrite IH.
Qed.

Lemma ends_follow_model l :
  ends_after_starts (map segment_dict l) = ends_after_starts (model_timings l).
Proof.
  unfold ends_after_starts, model_timings.
  induction l as [|a l IH]; [done|]. simpl. by rewrite IH.
Qed.

Lemma chronological_follows_model l :
  chronological (map segment_dict l) = chronological (model_timings l).
Proof. unfold chronological. by rewrite starts_follow_model, ends_follow_model. Qed.

Lemma segment_dict_times l :
  map d_start (map segment_dict l) = map seg_start l ∧
  map d_end (map segment_dict l) = map seg_end l.
Proof. by rewrite !map_map. Qed.

(** C5, as the code has it.  The segments of a response of either route
    carry, in order, the start and end times of the segments the model
    yielded: the handlers neither sort nor check them.  So the starts are
    non-decreasing and each end is at least its start exactly when this
    holds of the model's segments. *)
Theorem segment_times_follow_model w audio language segs
    (Hret : (∃ r w', transcribe audio language w = (Ok r, w') ∧
                     segments r = segs) ∨
            (∃ r w', transcribe_stream audio language w = (Ok r, w') ∧
                     s_segments r = segs)) :
  ∃ model files tmp params it info,
    whisper_model w = Some model ∧
    invocation_yields model files tmp params it info ∧
    map d_start segs = map seg_start (yielded it) ∧
    map d_end segs = map seg_end (yielded it) ∧
    chronological segs = chronological (model_timings (yielded it)).
Proof.
  destruct Hret as [(r & w' & Hok & <-)|(r & w' & Hok & <-)].
  - destruct (transcribe_Ok_inv _ _ _ _ _ Hok)
      as (model & tmp & w1 & it & info & Hmodel & _ & Hcall & -> & _).
    exists model, (fs w1), tmp, (full_params language), it, info. simpl.
    destruct (segment_dict_times (yielded it)) as [-> ->].
    by rewrite chronological_follows_model.
  - destruct (transcribe_stream_Ok_inv _ _ _ _ _ Hok)
      as (model & tmp & w1 & it & info & Hmodel & _ & Hcall & -> & _).
    exists model, (fs w1), tmp, (stream_params language), it, info. simpl.
    destruct (segment_dict_times (yielded it)) as [-> ->].
    by rewrite chronological_follows_model.
Qed.

Lemma segment_times_follow_model_witness :
  ∃ model files tmp params it info,
    whisper_model Sample.world = Some model ∧
    invocation_yields model files tmp params it info ∧
    map d_start (segments Sample.response) = map seg_start (yielded it) ∧
    map d_end (segments Sample.response) = map seg_end (yielded it) ∧
    chronological (segments Sample.response) =
      chronological (model_timings (yielded it)).
Proof.
  refine (segment_times_follow_model Sample.world Sample.clip Sample.zh
            (segments Sample.response) _).
  left. exists Sample.response, (transcribe Sample.clip Sample.zh Sample.world).2.
  split; [vm_compute; reflexivity|reflexivity].
Defined.

(** C5, as the claim states it, fails on both routes: a model whose segment
    ends before it starts has that segment returned as it is. *)
Lemma segments_not_always_chronological :
  ¬ (∀ w audio language r w',
       transcribe audio language w = (Ok r, w') →
       chronological (segments r) = true) ∧
  ¬ (∀ w audio language r w',
       transcribe_stream audio language w = (Ok r, w') →
       chronological (s_segments r) = true).
Proof.
  split; intros Hall.
  - assert (transcribe Sample.clip Sample.zh Sample.backwards =
              (Ok Sample.backwards_response,
               (transcribe Sample.clip Sample.zh Sample.backwards).2)) as Hrun
      by (vm_compute; reflexivity).
    apply Hall in Hrun. vm_compute in Hrun. discriminate.
  - assert (transcribe_stream Sample.clip Sample.zh Sample.backwards =
              (Ok Sample.backwards_stream_response,
               (transcribe_stream Sample.clip Sample.zh Sample.backwards).2)) as Hrun
      by (vm_compute; reflexivity).
    apply Hall in Hrun. vm_compute in Hrun. discriminate.
Qed.

(** ** One request: the cases of a handler *)

Lemma transcribe_cases w audio hint :
  (whisper_model w = None ∧
   transcribe audio hint w =
     (Raise (HTTPException 503
               (lit "Whisper model not loaded. Please check server logs.")), w)) ∨
  (∃ e w1, is_Some (whisper_model w) ∧
     staged audio read_failure_400 w (Raise e) w1 ∧
     transcribe audio hint w = (Raise e, w1)) ∨
  (∃ model tmp w1, whisper_model w = Some model ∧
     staged audio read_failure_400 w (Ok tmp) w1 ∧
     transcribe audio hint w =
       (shaped_response (model_transcribe model (fs w1) tmp (full_params hint)),
        after_unlink tmp w1)).
Proof.
  destruct (whisper_model w) as [model|] eqn:Hmodel;
    [right|left; by rewrite (transcribe_absent w audio hint Hmodel)].
  pose proof (transcribe_stage_staged audio w) as Hst.
  destruct (transcribe_stage audio w) as [[tmp|e] w1] eqn:Hstage; simpl in Hst.
  - right. exists model, tmp, w1. repeat (split; [done|]).
    by apply transcribe_run.
  - left. exists e, w1. repeat (split; [done|]).
    by eapply transcribe_stage_fails.
Qed.

Lemma transcribe_stream_cases w audio hint :
  (whisper_model w = None ∧
   transcribe_stream audio hint w =
     (Raise (HTTPException 503 (lit "Whisper model not loaded")), w)) ∨
  (∃ e w1, is_Some (whisper_model w) ∧
     staged audio id w (Raise e) w1 ∧
     transcribe_stream audio hint w = (Raise e, w1)) ∨
  (∃ model tmp w1, whisper_model w = Some model ∧
     staged audio id w (Ok tmp) w1 ∧
     transcribe_stream audio hint w =
       (stream_response (model_transcribe model (fs w1) tmp (stream_params hint)),
        after_unlink tmp w1)).
Proof.
  destruct (whisper_model w) as [model|] eqn:Hmodel;
    [right|left; by rewrite (transcribe_stream_absent w audio hint Hmodel)].
  pose proof (transcribe_stream_stage_staged audio w) as Hst.
  destruct (transcribe_stream_stage audio w) as [[tmp|e] w1] eqn:Hstage; simpl in Hst.
  - right. exists model, tmp, w1. repeat (split; [done|]).
    by apply transcribe_stream_run.
  - left. exists e, w1. repeat (split; [done|]).
    by eapply transcribe_stream_stage_fails.
Qed.

Lemma transcribe_holder w audio hint :
  same_holder w (transcribe audio hint w).2.
Proof.
  destruct (transcribe_cases w audio hint)
    as [[_ ->]|[(e & w1 & _ & Hst & ->)|(model & tmp & w1 & _ & Hst & ->)]]; simpl.
  - apply same_holder_refl.
  - by eapply staged_holder.
  - eapply same_holder_trans; [by eapply staged_holder|apply after_unlink_holder].
Qed.

Lemma transcribe_stream_holder w audio hint :
  same_holder w (transcribe_stream audio hint w).2.
Proof.
  destruct (transcribe_stream_cases w audio hint)
    as [[_ ->]|[(e & w1 & _ & Hst & ->)|(model & tmp & w1 & _ & Hst & ->)]]; simpl.
  - apply same_holder_refl.
  - by eapply staged_holder.
  - eapply same_holder_trans; [by eapply staged_holder|apply after_unlink_holder].
Qed.

Lemma staged_at_most_one audio shape w r w1 :
  staged audio shape w r w1 → at_most_one_new_file (fs w) (fs w1).
Proof.
  intros Hst.
  destruct (staged_files _ _ _ _ _ Hst) as [->|(tmp & c & Hnew & _ & ->)];
    [by left|right; by exists tmp, c].
Qed.

Lemma staged_then_unlinked audio shape w tmp w1 :
  staged audio shape w (Ok tmp) w1 →
  at_most_one_new_file (fs w) (fs (after_unlink tmp w1)).
Proof.
  intros Hst.
  destruct (staged_Ok_inv _ _ _ _ _ Hst) as (content & _ & Hnew & Hfs & Hdel & _).
  destruct (after_unlink_files tmp w1) as [-> | ->].
  - left. done.
  - right. by exists tmp, content.
Qed.

Lemma transcribe_files w audio hint :
  at_most_one_new_file (fs w) (fs (transcribe audio hint w).2).
Proof.
  destruct (transcribe_cases w audio hint)
    as [[_ ->]|[(e & w1 & _ & Hst & ->)|(model & tmp & w1 & _ & Hst & ->)]]; simpl.
  - by left.
  - by eapply staged_at_most_one.
  - by eapply staged_then_unlinked.
Qed.

Lemma transcribe_stream_files w audio hint :
  at_most_one_new_file (fs w) (fs (transcribe_stream audio hint w).2).
Proof.
  destruct (transcribe_stream_cases w audio hint)
    as [[_ ->]|[(e & w1 & _ & Hst & ->)|(model & tmp & w1 & _ & Hst & ->)]]; simpl.
  - by left.
  - by eapply staged_at_most_one.
  - by eapply staged_then_unlinked.
Qed.

(** On a system that refuses nothing, a staging of a readable upload can
    only fail for want of a temporary file, and then no file is left. *)
Lemma staged_Raise_obliging audio shape w e w1 content :
  staged audio shape w (Raise e) w1 →
  upload_read audio = Ok content → os_obliging w →
  fs w1 = fs w.
Proof.
  intros Hst Hread Hos.
  assert (∀ tmp w0,
            NamedTemporaryFile (expected_ext (upload_filename audio)) w
              = (tmp, w0) → os_faults w0 = os_faults w) as Hfaults.
  { intros tmp w0 Htmp.
    pose proof (NamedTemporaryFile_holder
                  (expected_ext (upload_filename audio)) w) as Hh.
    rewrite Htmp in Hh. by destruct Hh as (_ & _ & _ & _ & _ & Hf). }
  inversion Hst as [e' w' Htmp|tmp w0 e' Htmp Hread'
                   |tmp w0 content' c err Htmp _ Hwrite
                   |tmp w0 content' err Htmp _ _ Hclose|]; subst.
  - by destruct (NamedTemporaryFile_Raise _ _ _ _ Htmp).
  - by rewrite Hread in Hread'.
  - rewrite (Hfaults _ _ Htmp) in Hwrite.
    destruct (Hos (fs w0) tmp) as (Hw & _). by rewrite Hw in Hwrite.
  - rewrite (Hfaults _ _ Htmp) in Hclose.
    destruct (Hos (<[tmp := content']> (fs w0)) tmp) as (_ & Hc & _).
    by rewrite Hc in Hclose.
Qed.

Lemma staged_unlinked_obliging audio shape w tmp w1 :
  staged audio shape w (Ok tmp) w1 → os_obliging w →
  fs (after_unlink tmp w1) = fs w.
Proof.
  intros Hst Hos.
  destruct (staged_Ok_inv _ _ _ _ _ Hst) as (content & _ & _ & _ & Hdel & _).
  destruct (staged_holder _ _ _ _ _ Hst) as (_ & _ & _ & _ & _ & Hfaults).
  rewrite after_unlink_removes; [done|].
  rewrite Hfaults. by destruct (Hos (fs w1) tmp) as (_ & _ & Hu).
Qed.

(** The state after [app req] is the state after the handler of [req]. *)
Lemma app_state req w :
  (app req w).2 =
    match req with
    | GetHealth => w
    | PostTranscribe audio hint => (transcribe audio hint w).2
    | PostTranscribeStream audio hint => (transcribe_stream audio hint w).2
    end.
Proof.
  destruct req as [|audio hint|audio hint]; unfold app, bind; simpl; [done| |].
  - by destruct (transcribe audio hint w) as [[r|e] w1].
  - by destruct (transcribe_stream audio hint w) as [[r|e] w1].
Qed.

Lemma app_holder req w : same_holder w (app req w).2.
Proof.
  rewrite app_state. destruct req as [|audio hint|audio hint].
  - apply same_holder_refl.
  - apply transcribe_holder.
  - apply transcribe_stream_holder.
Qed.

Lemma app_files req w : at_most_one_new_file (fs w) (fs (app req w).2).
Proof.
  rewrite app_state. destruct req as [|audio hint|audio hint].
  - by left.
  - apply transcribe_files.
  - apply transcribe_stream_files.
Qed.

Lemma serve_cons req rest w :
  serve (req :: rest) w =
    ((app req w).1 :: (serve rest (app req w).2).1, (serve rest (app req w).2).2).
Proof.
  simpl. destruct (app req w) as [r w1]. simpl.
  by destruct (serve rest w1) as [rs w2].
Qed.

(** ** The staged file after the request *)

Lemma files_after_transcribe w audio language content :
  upload_read audio = Ok content → os_obliging w →
  fs (transcribe audio language w).2 = fs w.
Proof.
  intros Hread Hos.
  destruct (transcribe_cases w audio language)
    as [[_ ->]|[(e & w1 & _ & Hst & ->)|(model & tmp & w1 & _ & Hst & ->)]]; simpl.
  - done.
  - by eapply staged_Raise_obliging.
  - by eapply staged_unlinked_obliging.
Qed.

Lemma files_after_transcribe_stream w audio language content :
  upload_read audio = Ok content → os_obliging w →
  fs (transcribe_stream audio language w).2 = fs w.
Proof.
  intros Hread Hos.
  destruct (transcribe_stream_cases w audio language)
    as [[_ ->]|[(e & w1 & _ & Hst & ->)|(model & tmp & w1 & _ & Hst & ->)]]; simpl.
  - done.
  - by eapply staged_Raise_obliging.
  - by eapply staged_unlinked_obliging.
Qed.

(** When the upload can be read and the system refuses neither the write,
    nor the close, nor the unlink, the files on disk after a request to
    either route are those before it: the staged file is unlinked whether
    the model call succeeds or fails, and nothing else is touched. *)
Theorem readable_upload_leaves_no_file w audio language content
    (Hread : upload_read audio = Ok content)
    (Hos : os_obliging w) :
  fs (transcribe audio language w).2 = fs w ∧
  fs (transcribe_stream audio language w).2 = fs w.
Proof.
  split.
  - by apply (files_after_transcribe w audio language content).
  - by apply (files_after_transcribe_stream w audio language content).
Qed.

Lemma readable_upload_leaves_no_file_witness :
  fs (transcribe Sample.clip Sample.zh Sample.failing).2 = fs Sample.failing ∧
  fs (transcribe_stream Sample.clip Sample.zh Sample.failing).2 = fs Sample.failing.
Proof.
  refine (readable_upload_leaves_no_file Sample.failing Sample.clip Sample.zh
            _ eq_refl _).
  intros files path. repeat split.
Defined.

(** C1 fails on the code when the upload cannot be read.  With the handle
    present and the temporary file created as [tmp], an exception of the
    read leaves both handlers before their [try/finally] is entered, so the
    file, which did not exist before the request, is still on disk, empty,
    after it. *)
Theorem unread_upload_leaves_staged_file w audio language model tmp w0 e
    (Hmodel : whisper_model w = Some model)
    (Htmp : NamedTemporaryFile (expected_ext (upload_filename audio)) w = (Ok tmp, w0))
    (Hread : upload_read audio = Raise e) :
  fs w !! tmp = None ∧
  fs (transcribe audio language w).2 !! tmp = Some [] ∧
  fs (transcribe_stream audio language w).2 !! tmp = Some [].
Proof.
  destruct (NamedTemporaryFile_Ok _ _ _ _ Htmp) as (Hnew & _ & Hfs & _).
  rewrite (transcribe_stage_fails w audio language model _ w0
             Hmodel (transcribe_stage_unread _ _ _ _ _ Htmp Hread)).
  rewrite (transcribe_stream_stage_fails w audio language model _ w0
             Hmodel (transcribe_stream_stage_unread _ _ _ _ _ Htmp Hread)).
  simpl. by rewrite Hfs, lookup_insert_eq.
Qed.

Lemma unread_upload_leaves_staged_file_witness :
  fs Sample.world !! lit "/tmp/tmpk.mp3" = None ∧
  fs (transcribe Sample.broken Sample.zh Sample.world).2 !! lit "/tmp/tmpk.mp3"
    = Some [] ∧
  fs (transcribe_stream Sample.broken Sample.zh Sample.world).2 !! lit "/tmp/tmpk.mp3"
    = Some [].
Proof.
  refine (unread_upload_leaves_staged_file Sample.world Sample.broken Sample.zh
            Sample.model (lit "/tmp/tmpk.mp3")
            (NamedTemporaryFile (lit ".mp3") Sample.world).2 Sample.reset
            eq_refl _ eq_refl).
  vm_compute. reflexivity.
Defined.

(** ** What the model is called with, and what is reported back *)

Lemma transcribe_stage_Ok_inv audio w tmp w1 :
  transcribe_stage audio w = (Ok tmp, w1) →
  ∃ content, upload_read audio = Ok content ∧ fs w !! tmp = None ∧
             fs w1 = <[tmp := content]> (fs w).
Proof.
  intros Hstage. pose proof (transcribe_stage_staged audio w) as Hst.
  rewrite Hstage in Hst. simpl in Hst.
  destruct (staged_Ok_inv _ _ _ _ _ Hst) as (content & Hread & Hnew & Hfs & _).
  by exists content.
Qed.

Lemma transcribe_stream_stage_Ok_inv audio w tmp w1 :
  transcribe_stream_stage audio w = (Ok tmp, w1) →
  ∃ content, upload_read audio = Ok content ∧ fs w !! tmp = None ∧
             fs w1 = <[tmp := content]> (fs w).
Proof.
  intros Hstage. pose proof (transcribe_stream_stage_staged audio w) as Hst.
  rewrite Hstage in Hst. simpl in Hst.
  destruct (staged_Ok_inv _ _ _ _ _ Hst) as (content & Hread & Hnew & Hfs & _).
  by exists content.
Qed.

(** A successful [/transcribe] response comes from one call of the model,
    with beam size 5, best-of 5, temperature 0 and the voice-activity
    filter on, on a file that did not exist before and holds exactly the
    uploaded bytes; its [language] and [duration] are the ones the model
    reported, whatever the language hint of the request. *)
Theorem transcribe_reports_model w audio hint r w'
    (Hok : transcribe audio hint w = (Ok r, w')) :
  ∃ model tmp content it info,
    whisper_model w = Some model ∧
    upload_read audio = Ok content ∧
    fs w !! tmp = None ∧
    invocation_yields model (<[tmp := content]> (fs w)) tmp
      {| p_language := hint; beam_size := 5; best_of := 5;
         temperature := 0; vad_filter := true |} it info ∧
    language r = info_language info ∧
    duration r = info_duration info.
Proof.
  destruct (transcribe_Ok_inv _ _ _ _ _ Hok)
    as (model & tmp & w1 & it & info & Hmodel & Hstage & Hcall & -> & _).
  destruct (transcribe_stage_Ok_inv _ _ _ _ Hstage) as (content & Hread & Hnew & Hfs).
  exists model, tmp, content, it, info. rewrite <- Hfs.
  repeat (split; [done|]). done.
Qed.

Lemma transcribe_reports_model_witness :
  ∃ model tmp content it info,
    whisper_model Sample.world = Some model ∧
    upload_read Sample.clip = Ok content ∧
    fs Sample.world !! tmp = None ∧
    invocation_yields model (<[tmp := content]> (fs Sample.world)) tmp
      {| p_language := Sample.zh; beam_size := 5; best_of := 5;
         temperature := 0; vad_filter := true |} it info ∧
    language Sample.response = info_language info ∧
    duration Sample.response = info_duration info.
Proof.
  refine (transcribe_reports_model Sample.world Sample.clip Sample.zh
            Sample.response
            (transcribe Sample.clip Sample.zh Sample.world).2 _).
  vm_compute. reflexivity.
Defined.

(** A successful [/transcribe-stream] response comes from one call of the
    model with beam size 3 and best-of 3 on the staged upload, and carries
    one dict per yielded segment, in order, with the model's language and
    duration. *)
Theorem transcribe_stream_reports_model w audio language r w'
    (Hok : transcribe_stream audio language w = (Ok r, w')) :
  ∃ model tmp content it info,
    whisper_model w = Some model ∧
    upload_read audio = Ok content ∧
    fs w !! tmp = None ∧
    invocation_yields model (<[tmp := content]> (fs w)) tmp
      {| p_language := language; beam_size := 3; best_of := 3;
         temperature := 0; vad_filter := true |} it info ∧
    s_segments r = map segment_dict (yielded it) ∧
    s_language r = info_language info ∧
    s_duration r = info_duration info.
Proof.
  destruct (transcribe_stream_Ok_inv _ _ _ _ _ Hok)
    as (model & tmp & w1 & it & info & Hmodel & Hstage & Hcall & -> & _).
  destruct (transcribe_stream_stage_Ok_inv _ _ _ _ Hstage)
    as (content & Hread & Hnew & Hfs).
  exists model, tmp, content, it, info. rewrite <- Hfs.
  repeat (split; [done|]). done.
Qed.

Lemma transcribe_stream_reports_model_witness :
  ∃ model tmp content it info,
    whisper_model Sample.backwards = Some model ∧
    upload_read Sample.clip = Ok content ∧
    fs Sample.backwards !! tmp = None ∧
    invocation_yields model (<[tmp := content]> (fs Sample.backwards)) tmp
      {| p_language := Sample.zh; beam_size := 3; best_of := 3;
         temperature := 0; vad_filter := true |} it info ∧
    s_segments Sample.backwards_stream_response = map segment_dict (yielded it) ∧
    s_language Sample.backwards_stream_response = info_language info ∧
    s_duration Sample.backwards_stream_response = info_duration info.
Proof.
  refine (transcribe_stream_reports_model Sample.backwards Sample.clip Sample.zh
            Sample.backwards_stream_response
            (transcribe_stream Sample.clip Sample.zh Sample.backwards).2 _).
  vm_compute. reflexivity.
Defined.

(** ** The shape of the staged suffix *)

Lemma rfind_from_spec p c i last :
  (rfind_from p c i last = last ∧ c ∉ p) ∨
  ((i <= rfind_from p c i last < i + Z.of_nat (length p))%Z ∧
   ∃ rest, drop (Z.to_nat (rfind_from p c i last - i)) p = c :: rest ∧ c ∉ rest).
Proof.
  revert i last. induction p as [|x p IH]; intros i last; simpl.
  - left. split; [done|]. apply not_elem_of_nil.
  - destruct (IH (i + 1)%Z (if (x =? c)%N then i else last))
      as [[Hr Hnot]|(Hrange & rest & Hdrop & Hnot)].
    + rewrite Hr. destruct (x =? c)%N eqn:Hx.
      * apply N.eqb_eq in Hx as ->. right. split; [lia|].
        exists p. by rewrite Z.sub_diag.
      * apply N.eqb_neq in Hx. left. split; [done|].
        rewrite not_elem_of_cons. split; [congruence|done].
    + right. split; [lia|]. exists rest. split; [|done].
      replace (Z.to_nat (rfind_from p c (i + 1) (if (x =? c)%N then i else last) - i))
        with (S (Z.to_nat (rfind_from p c (i + 1)
                             (if (x =? c)%N then i else last) - (i + 1)))) by lia.
      done.
Qed.

Lemma splitext_scan_cases n p filenameIndex dotIndex :
  splitext_scan n p filenameIndex dotIndex = (p, []) ∨
  splitext_scan n p filenameIndex dotIndex =
    (take (Z.to_nat dotIndex) p, drop (Z.to_nat dotIndex) p).
Proof.
  revert filenameIndex. induction n as [|n IH]; intros filenameIndex; simpl.
  - by left.
  - case_decide; [by right|apply IH].
Qed.

Lemma splitext_cases p :
  splitext p = (p, []) ∨
  ((rfind p sep < rfind p extsep)%Z ∧
   splitext p = (take (Z.to_nat (rfind p extsep)) p,
                 drop (Z.to_nat (rfind p extsep)) p)).
Proof.
  unfold splitext.
  destruct (rfind p extsep >? rfind p sep)%Z eqn:Hgt; [|by left].
  apply Z.gtb_lt in Hgt.
  destruct (splitext_scan_cases (Z.to_nat (rfind p extsep - (rfind p sep + 1)))
              p (rfind p sep + 1) (rfind p extsep)) as [->| ->]; [by left|by right].
Qed.

(** An extension returned by [splitext] is empty, or a dot followed by
    characters that are neither dots nor separators. *)
Lemma splitext_ext_shape p :
  (splitext p).2 = [] ∨
  ∃ e, (splitext p).2 = extsep :: e ∧ (extsep ∉ e) ∧ (sep ∉ e).
Proof.
  destruct (splitext_cases p) as [->|[Hlt ->]]; [by left|]. right. simpl.
  unfold rfind in *.
  destruct (rfind_from_spec p extsep 0 (-1))
    as [[Hdot _]|(Hdrange & e & Hddrop & Hdnot)].
  { destruct (rfind_from_spec p sep 0 (-1)) as [[Hs _]|(Hsrange & _)]; lia. }
  rewrite Z.sub_0_r in Hddrop. exists e. split; [done|]. split; [done|].
  destruct (rfind_from_spec p sep 0 (-1))
    as [[_ Hsnot]|(Hsrange & rest & Hsdrop & Hsnot)].
  - intros Hin. apply Hsnot.
    rewrite <- (take_drop (Z.to_nat (rfind_from p extsep 0 (-1))) p), Hddrop.
    apply elem_of_app. right. by apply elem_of_cons; right.
  - rewrite Z.sub_0_r in Hsdrop. intros Hin. apply Hsnot.
    set (s := Z.to_nat (rfind_from p sep 0 (-1))) in *.
    set (d := Z.to_nat (rfind_from p extsep 0 (-1))) in *.
    assert (drop 1 (drop s p) = rest) as Hrest by (by rewrite Hsdrop).
    assert (drop 1 (drop d p) = e) as He by (by rewrite Hddrop).
    rewrite drop_drop in Hrest, He.
    rewrite <- He in Hin. rewrite <- Hrest.
    replace (d + 1)%nat with ((s + 1) + (d - s))%nat in Hin by lia.
    rewrite <- drop_drop in Hin.
    rewrite <- (take_drop (d - s) (drop (s + 1) p)).
    apply elem_of_app. by right.
Qed.

Lemma splitext_concat p : (splitext p).1 ++ (splitext p).2 = p.
Proof.
  destruct (splitext_cases p) as [->|[_ ->]]; simpl.
  - apply app_nil_r.
  - apply take_drop.
Qed.

(** The suffix computed at lines 127-128 and 197-198 is always a dot
    followed by characters that are neither dots nor path separators: no
    uploaded filename can move the staged file out of the temporary
    directory through its suffix. *)
Theorem staged_suffix_has_no_separator filename :
  ∃ e, str_or (splitext (opt_or filename (lit "audio.webm"))).2 (lit ".webm")
         = extsep :: e ∧
       (extsep ∉ e) ∧ (sep ∉ e).
Proof.
  rewrite staging_ext.
  assert (∃ e, lit ".webm" = extsep :: e ∧ (extsep ∉ e) ∧ (sep ∉ e)) as Hwebm.
  { exists (lit "webm"). split; [done|].
    split; intros Hin;
      repeat (apply elem_of_cons in Hin as [Hin|Hin]; [discriminate|]);
      by apply elem_of_nil in Hin. }
  destruct filename as [name|]; [|done]. simpl.
  destruct (splitext_ext_shape name) as [->|(e & Hext & Hshape)]; [done|].
  rewrite Hext. by exists e.
Qed.

(** ** Many requests *)

Lemma health_check_holder w w' :
  same_holder w w' → (health_check w').1 = (health_check w).1.
Proof.
  intros (Hmodel & Henv & _). unfold health_check, environ_get. simpl.
  by rewrite Hmodel, Henv.
Qed.

(** Serving requests never assigns the global handle, the environment, the
    installed package or tempfile's settings, whatever the requests and
    their outcomes; so [/health] answers the same after any number of
    requests as before them. *)
Theorem serving_keeps_the_holder reqs w :
  same_holder w (serve reqs w).2 ∧
  (health_check (serve reqs w).2).1 = (health_check w).1.
Proof.
  assert (same_holder w (serve reqs w).2) as Hh.
  { revert w. induction reqs as [|req rest IH]; intros w.
    - apply same_holder_refl.
    - rewrite serve_cons. simpl.
      eapply same_holder_trans; [apply app_holder|apply IH]. }
  split; [done|by apply health_check_holder].
Qed.

Lemma os_obliging_holder w w' :
  same_holder w w' → os_obliging w → os_obliging w'.
Proof.
  intros (_ & _ & _ & _ & _ & Hfaults) Hos. unfold os_obliging.
  by rewrite Hfaults.
Qed.

Lemma app_readable_files req w :
  readable req = true → os_obliging w → fs (app req w).2 = fs w.
Proof.
  rewrite app_state. destruct req as [|audio hint|audio hint]; simpl; [done| |].
  - destruct (upload_read audio) as [content|e] eqn:Hread; [|done]. intros _ Hos.
    by apply (files_after_transcribe w audio hint content).
  - destruct (upload_read audio) as [content|e] eqn:Hread; [|done]. intros _ Hos.
    by apply (files_after_transcribe_stream w audio hint content).
Qed.

(** On a system that refuses neither a write, nor a close, nor an unlink,
    after any sequence of requests whose uploads can all be read the files
    on disk are exactly the files before the first of them: staged files
    do not pile up, whether the model calls succeed or fail. *)
Theorem readable_requests_leave_no_file reqs w
    (Hreadable : forallb readable reqs = true)
    (Hos : os_obliging w) :
  fs (serve reqs w).2 = fs w.
Proof.
  revert w Hreadable Hos.
  induction reqs as [|req rest IH]; intros w Hreadable Hos; [done|].
  simpl in Hreadable. apply andb_true_iff in Hreadable as [Hreq Hrest].
  rewrite serve_cons. simpl.
  rewrite (IH _ Hrest (os_obliging_holder _ _ (app_holder req w) Hos)).
  by apply app_readable_files.
Qed.

Lemma readable_requests_leave_no_file_witness :
  fs (serve Traffic.readable_requests Traffic.busy).2 = fs Traffic.busy.
Proof.
  refine (readable_requests_leave_no_file Traffic.readable_requests Traffic.busy
            eq_refl _).
  intros files path. repeat split.
Defined.

Lemma one_new_file_grows (before after : gmap str bytes) :
  at_most_one_new_file before after → before ⊆ after.
Proof.
  intros [->|(tmp & content & Hnew & ->)]; [done|].
  by apply insert_subseteq.
Qed.

(** Whatever the requests, their outcomes and the faults of the system,
    serving them never removes, renames or rewrites a file that was on
    disk before the first of them: every such file is still there with its
    content. *)
Theorem serving_keeps_existing_files reqs w :
  fs w ⊆ fs (serve reqs w).2 ∧
  ∀ p content, fs w !! p = Some content →
               fs (serve reqs w).2 !! p = Some content.
Proof.
  assert (fs w ⊆ fs (serve reqs w).2) as Hsub.
  { revert w. induction reqs as [|req rest IH]; intros w; [done|].
    rewrite serve_cons. simpl.
    etrans; [exact (one_new_file_grows _ _ (app_files req w))|apply IH]. }
  split; [done|]. intros p content Hp.
  by eapply lookup_weaken.
Qed.

Lemma app_absent req w :
  whisper_model w = None → app req w = (refused w req, w).
Proof.
  intros Habsent. destruct req as [|audio hint|audio hint]; unfold app, bind.
  - unfold health_check, ret. simpl. by rewrite Habsent.
  - by rewrite (transcribe_absent w audio hint Habsent).
  - by rewrite (transcribe_stream_absent w audio hint Habsent).
Qed.

Lemma serve_absent reqs w :
  whisper_model w = None → serve reqs w = (map (refused w) reqs, w).
Proof.
  intros Habsent. induction reqs as [|req rest IH]; [done|].
  rewrite serve_cons, (app_absent req w Habsent). simpl. by rewrite IH.
Qed.

Lemma set_whisper_model_id w :
  set_whisper_model (whisper_model w) w = w.
Proof. by destruct w. Qed.

Lemma load_fails_returns_None w :
  load_fails w → load_whisper_model w = (Ok None, w).
Proof.
  unfold load_fails. intros Hfail.
  destruct (faster_whisper w) as [ctor|e] eqn:Hpkg.
  - destruct (load_config w) as [[model_size device] compute_type] eqn:Hcfg.
    destruct Hfail as [e He].
    apply (load_constructor_raises w ctor e Hpkg). by rewrite Hcfg.
  - by apply (load_missing_dependency w e).
Qed.

(** A process whose load fails (the package is missing or the constructor
    raises) still starts, answers every transcription request of its
    lifetime with the 503 and every [/health] with ["model_not_loaded"],
    and ends in the state it started in: no file is created and no
    temporary name is drawn. *)
Theorem failed_load_refuses_for_life reqs w
    (Hinit : whisper_model w = None)
    (Hfail : load_fails w) :
  run reqs w = (Some (map (refused w) reqs), w).
Proof.
  unfold run, lifespan_startup, bind.
  rewrite (load_fails_returns_None w Hfail). simpl.
  rewrite (serve_absent reqs w Hinit). simpl.
  unfold lifespan_shutdown. simpl.
  by rewrite <- Hinit, set_whisper_model_id.
Qed.

Lemma failed_load_refuses_for_life_witness :
  run Traffic.mixed_requests Sample.missing =
    (Some (map (refused Sample.missing) Traffic.mixed_requests), Sample.missing).
Proof.
  exact (failed_load_refuses_for_life Traffic.mixed_requests Sample.missing
           eq_refl eq_refl).
Defined.

(** ** [/health] after start-up *)

(** When [lifespan] gets past the load, [/health] reports ["ok"] and
    [model_loaded = true] exactly when the package imported and the
    constructor returned a model, and ["model_not_loaded"] and [false]
    otherwise; and a successful load leaves a present handle. *)
Theorem health_after_startup w w1
    (Hinit : whisper_model w = None)
    (Hstart : lifespan_startup w = (Ok tt, w1)) :
  (health_check w1).1 =
    Ok {| status := if load_succeeds w then lit "ok" else lit "model_not_loaded";
          model_loaded := load_succeeds w;
          model_name := environ_get w (lit "WHISPER_MODEL") (lit "small") |} ∧
  (load_succeeds w = true ↔ is_Some (whisper_model w1)).
Proof.
  unfold lifespan_startup, bind, load_whisper_model, load_succeeds in *.
  destruct (faster_whisper w) as [ctor|e].
  - destruct (load_config w) as [[model_size device] compute_type].
    unfold store_model in Hstart.
    destruct (ctor model_size device compute_type) as [model|e];
      injection Hstart as <-; unfold health_check; simpl.
    + split; [done|]. split; [by eexists|done].
    + rewrite Hinit. split; [done|]. split; [done|]. by intros [? ?].
  - destruct (is_ImportError e); [|done].
    injection Hstart as <-. unfold health_check. simpl. rewrite Hinit.
    split; [done|]. split; [done|]. by intros [? ?].
Qed.

Lemma health_after_startup_witness :
  (health_check (lifespan_startup Sample.unloaded).2).1 =
    Ok {| status := lit "ok"; model_loaded := true; model_name := lit "small" |}.
Proof.
  exact (proj1 (health_after_startup Sample.unloaded
                  (lifespan_startup Sample.unloaded).2 eq_refl eq_refl)).
Defined.

(** ** The texts of the segments *)

Lemma lstrip_spec s :
  ∃ pre, s = pre ++ lstrip s ∧ forallb isspace pre = true ∧
         match head (lstrip s) with
         | Some c => isspace c = false
         | None => True
         end.
Proof.
  induction s as [|c s (pre & Hs & Hpre & Hhead)]; simpl.
  - by exists [].
  - destruct (isspace c) eqn:Hc.
    + exists (c :: pre). simpl. rewrite Hc, Hpre. by rewrite Hs at 1.
    + by exists [].
Qed.

Lemma last_rev (l : str) : last (rev l) = head l.
Proof. destruct l as [|c l]; [done|]. simpl. apply last_snoc. Qed.

Lemma forallb_rev (f : N → bool) l : forallb f (rev l) = forallb f l.
Proof.
  induction l as [|c l IH]; [done|]. simpl.
  rewrite forallb_app, IH. simpl. by rewrite andb_true_r, andb_comm.
Qed.

Lemma rstrip_spec s :
  ∃ post, s = rstrip s ++ post ∧ forallb isspace post = true ∧
          match last (rstrip s) with
          | Some c => isspace c = false
          | None => True
          end.
Proof.
  unfold rstrip. destruct (lstrip_spec (rev s)) as (pre & Hs & Hpre & Hhead).
  exists (rev pre). rewrite last_rev, forallb_rev. split; [|done].
  by rewrite <- rev_app_distr, <- Hs, rev_involutive.
Qed.

(** [strip] takes whitespace, and only whitespace, off the two ends. *)
Lemma strip_spec s :
  trimmed (strip s) = true ∧
  ∃ pre post, s = pre ++ strip s ++ post ∧
              forallb isspace pre = true ∧ forallb isspace post = true.
Proof.
  unfold strip.
  destruct (lstrip_spec s) as (pre & Hs & Hpre & Hhead).
  destruct (rstrip_spec (lstrip s)) as (post & Ht & Hpost & Hlast).
  split.
  - unfold trimmed. apply andb_true_iff. split.
    + destruct (rstrip (lstrip s)) as [|c t] eqn:Hr; [done|]. simpl.
      rewrite Ht in Hhead. simpl in Hhead. by rewrite Hhead.
    + destruct (last (rstrip (lstrip s))) as [c|]; [|done]. by rewrite Hlast.
  - exists pre, post. by rewrite <- Ht.
Qed.

Lemma segment_dict_trimmed_copy l :
  Forall2 trimmed_copy (map segment_dict l) l.
Proof.
  induction l as [|s l IH]; constructor; [|done].
  unfold trimmed_copy, segment_dict. simpl.
  destruct (strip_spec (seg_text s)) as [Htrim Hparts]. by repeat split.
Qed.

(** The segments of a response of either route are, one for one and in
    order, the segments the model yielded: same start, same end, and a text
    that is the model's text with whitespace, and nothing but whitespace,
    removed from its two ends.  No segment is dropped, not even one whose
    text is all whitespace, and no text is changed inside. *)
Theorem response_segments_are_trimmed_copies w audio hint segs
    (Hret : (∃ r w', transcribe audio hint w = (Ok r, w') ∧ segments r = segs) ∨
            (∃ r w', transcribe_stream audio hint w = (Ok r, w') ∧
                     s_segments r = segs)) :
  ∃ model files tmp params it info,
    whisper_model w = Some model ∧
    invocation_yields model files tmp params it info ∧
    Forall2 trimmed_copy segs (yielded it) ∧
    length segs = length (yielded it).
Proof.
  destruct Hret as [(r & w' & Hok & <-)|(r & w' & Hok & <-)].
  - destruct (transcribe_Ok_inv _ _ _ _ _ Hok)
      as (model & tmp & w1 & it & info & Hmodel & _ & Hcall & -> & _).
    exists model, (fs w1), tmp, (full_params hint), it, info. simpl.
    repeat (split; [done|]).
    split; [apply segment_dict_trimmed_copy|by rewrite length_map].
  - destruct (transcribe_stream_Ok_inv _ _ _ _ _ Hok)
      as (model & tmp & w1 & it & info & Hmodel & _ & Hcall & -> & _).
    exists model, (fs w1), tmp, (stream_params hint), it, info. simpl.
    repeat (split; [done|]).
    split; [apply segment_dict_trimmed_copy|by rewrite length_map].
Qed.

Lemma response_segments_are_trimmed_copies_witness :
  ∃ model files tmp params it info,
    whisper_model Sample.world = Some model ∧
    invocation_yields model files tmp params it info ∧
    Forall2 trimmed_copy (segments Sample.response) (yielded it) ∧
    length (segments Sample.response) = length (yielded it).
Proof.
  refine (response_segments_are_trimmed_copies Sample.world Sample.clip Sample.zh
            (segments Sample.response) _).
  left. exists Sample.response, (transcribe Sample.clip Sample.zh Sample.world).2.
  split; [vm_compute; reflexivity|reflexivity].
Defined.

(** ** The status codes of [/transcribe] *)

Lemma shaped_response_status called :
  http_status (shaped_response called) = 200%Z ∨
  http_status (shaped_response called) = 500%Z.
Proof.
  unfold shaped_response. destruct called as [[it info]|e]; [|by right].
  destruct (raises it); [by right|]. unfold http_status.
  destruct (jsonable _); [by left|by right].
Qed.


(** What a failed staging of [/transcribe] raises: the exception of
    [NamedTemporaryFile] or of the close as it is, or the 400 around the
    exception of the read or of the write. *)
Lemma staged_400_Raise_inv audio w e w1 :
  staged audio read_failure_400 w (Raise e) w1 →
  (∃ w0, NamedTemporaryFile (expected_ext (upload_filename audio)) w
           = (Raise e, w0)) ∨
  (∃ files path cls msg,
     close_error (os_faults w) files path = Some (cls, msg) ∧
     e = PyExc cls msg) ∨
  (∃ e', upload_read audio = Raise e' ∧ e = read_failure_400 e') ∨
  (∃ files path data left_on_disk err,
     write_error (os_faults w) files path data = Some (left_on_disk, err) ∧
     e = read_failure_400 (os_exn err)).
Proof.
  intros Hst.
  assert (∀ tmp w0,
            NamedTemporaryFile (expected_ext (upload_filename audio)) w
              = (tmp, w0) → os_faults w0 = os_faults w) as Hfaults.
  { intros tmp w0 Htmp.
    pose proof (NamedTemporaryFile_holder
                  (expected_ext (upload_filename audio)) w) as Hh.
    rewrite Htmp in Hh. by destruct Hh as (_ & _ & _ & _ & _ & Hf). }
  inversion Hst as [e' w' Htmp|tmp w0 e' Htmp Hread
                   |tmp w0 content c err Htmp _ Hwrite
                   |tmp w0 content [cls msg] Htmp _ _ Hclose|]; subst.
  - left. by exists w1.
  - do 2 right. left. by exists e'.
  - do 3 right. rewrite (Hfaults _ _ Htmp) in Hwrite.
    by exists (fs w0), tmp, content, c, err.
  - right. left. rewrite (Hfaults _ _ Htmp) in Hclose.
    by exists (<[tmp := content]> (fs w0)), tmp, cls, msg.
Qed.

Lemma transcribe_503_iff_absent w audio hint :
  (http_status (transcribe audio hint w).1 = 503%Z → whisper_model w = None) ∧
  (whisper_model w = None → http_status (transcribe audio hint w).1 = 503%Z).
Proof.
  destruct (transcribe_cases w audio hint)
    as [[Habsent ->]|[(e & w1 & [model Hmodel] & Hst & ->)
                     |(model & tmp & w1 & Hmodel & Hst & ->)]]; simpl.
  - done.
  - rewrite Hmodel.
    destruct (staged_400_Raise_inv _ _ _ _ Hst)
      as [[w0 Htmp]|[(files & path & cls & msg & _ & ->)
         |[(e' & _ & ->)|(files & path & data & c & err & _ & ->)]]]; try done.
    by destruct (NamedTemporaryFile_Raise_exn _ _ _ _ Htmp) as (cls & msg & ->).
  - rewrite Hmodel.
    by destruct (shaped_response_status
                   (model_transcribe model (fs w1) tmp (full_params hint)))
      as [-> | ->].
Qed.



(** ** When the system refuses *)

Lemma transcribe_stage_no_name w audio e w1 :
  NamedTemporaryFile (expected_ext (upload_filename audio)) w = (Raise e, w1) →
  transcribe_stage audio w = (Raise e, w1).
Proof.
  intros Htmp. unfold transcribe_stage, bind at 1. by rewrite staging_ext, Htmp.
Qed.

Lemma NamedTemporaryFile_faults suffix w r w0 :
  NamedTemporaryFile suffix w = (r, w0) → os_faults w0 = os_faults w.
Proof.
  intros Htmp. pose proof (NamedTemporaryFile_holder suffix w) as Hh.
  rewrite Htmp in Hh. by destruct Hh as (_ & _ & _ & _ & _ & Hf).
Qed.

Lemma transcribe_stage_unwritten w audio tmp w0 content left_on_disk err :
  NamedTemporaryFile (expected_ext (upload_filename audio)) w = (Ok tmp, w0) →
  upload_read audio = Ok content →
  write_error (os_faults w) (fs w0) tmp content = Some (left_on_disk, err) →
  transcribe_stage audio w =
    (Raise (read_failure_400 (os_exn err)),
     set_fs (<[tmp := left_on_disk]> (fs w0)) w0) ∧
  transcribe_stream_stage audio w =
    (Raise (os_exn err), set_fs (<[tmp := left_on_disk]> (fs w0)) w0).
Proof.
  intros Htmp Hread Hwrite.
  destruct (NamedTemporaryFile_Ok _ _ _ _ Htmp) as (_ & _ & Hfs & _).
  rewrite <- (NamedTemporaryFile_faults _ _ _ _ Htmp) in Hwrite.
  split.
  - unfold transcribe_stage, bind at 1. rewrite staging_ext, Htmp.
    unfold bind, try_except, lift. rewrite Hread.
    by rewrite (file_write_new tmp content w w0 Hfs), Hwrite.
  - unfold transcribe_stream_stage, bind at 1. rewrite staging_ext, Htmp.
    unfold bind, lift. rewrite Hread.
    by rewrite (file_write_new tmp content w w0 Hfs), Hwrite.
Qed.

Lemma transcribe_stage_unclosed w audio tmp w0 content err :
  NamedTemporaryFile (expected_ext (upload_filename audio)) w = (Ok tmp, w0) →
  upload_read audio = Ok content →
  write_error (os_faults w) (fs w0) tmp content = None →
  close_error (os_faults w) (<[tmp := content]> (fs w0)) tmp = Some err →
  transcribe_stage audio w =
    (Raise (os_exn err), set_fs (<[tmp := content]> (fs w0)) w0) ∧
  transcribe_stream_stage audio w =
    (Raise (os_exn err), set_fs (<[tmp := content]> (fs w0)) w0).
Proof.
  intros Htmp Hread Hwrite Hclose.
  destruct (NamedTemporaryFile_Ok _ _ _ _ Htmp) as (_ & _ & Hfs & _).
  rewrite <- (NamedTemporaryFile_faults _ _ _ _ Htmp) in Hwrite, Hclose.
  split.
  - unfold transcribe_stage, bind at 1. rewrite staging_ext, Htmp.
    unfold bind, try_except, lift, ret, file_close. rewrite Hread.
    rewrite (file_write_new tmp content w w0 Hfs), Hwrite. simpl.
    by rewrite Hclose.
  - unfold transcribe_stream_stage, bind at 1. rewrite staging_ext, Htmp.
    unfold bind, lift, ret, file_close. rewrite Hread.
    rewrite (file_write_new tmp content w w0 Hfs), Hwrite. simpl.
    by rewrite Hclose.
Qed.

(** When the temporary file cannot be created (no free name, a name the
    system refuses, a suffix that cannot be passed to it), both routes let
    the exception through as it is: [/transcribe] does not turn it into its
    400, the framework answers 500, and no file is created. *)
Theorem uncreated_file_is_unshaped w audio language model e w1
    (Hmodel : whisper_model w = Some model)
    (Htmp : NamedTemporaryFile (expected_ext (upload_filename audio)) w
              = (Raise e, w1)) :
  (transcribe audio language w).1 = Raise e ∧
  (transcribe_stream audio language w).1 = Raise e ∧
  http_status (transcribe audio language w).1 = 500%Z ∧
  fs (transcribe audio language w).2 = fs w ∧
  fs (transcribe_stream audio language w).2 = fs w.
Proof.
  rewrite (transcribe_stage_fails w audio language model e w1 Hmodel
             (transcribe_stage_no_name _ _ _ _ Htmp)).
  rewrite (transcribe_stream_stage_fails w audio language model e w1 Hmodel
             (transcribe_stream_stage_no_name _ _ _ _ Htmp)).
  destruct (NamedTemporaryFile_Raise _ _ _ _ Htmp) as [Hfs _].
  destruct (NamedTemporaryFile_Raise_exn _ _ _ _ Htmp) as (cls & msg & ->).
  by split_and!.
Qed.

Lemma uncreated_file_is_unshaped_witness :
  (transcribe Traffic.nul_named Sample.zh Traffic.cramped).1 =
    Raise (PyExc ValueError (lit "embedded null byte")) ∧
  (transcribe_stream Traffic.nul_named Sample.zh Traffic.cramped).1 =
    Raise (PyExc ValueError (lit "embedded null byte")) ∧
  http_status (transcribe Traffic.nul_named Sample.zh Traffic.cramped).1 = 500%Z ∧
  fs (transcribe Traffic.nul_named Sample.zh Traffic.cramped).2
    = fs Traffic.cramped ∧
  fs (transcribe_stream Traffic.nul_named Sample.zh Traffic.cramped).2
    = fs Traffic.cramped.
Proof.
  refine (uncreated_file_is_unshaped Traffic.cramped Traffic.nul_named Sample.zh
            Sample.model (PyExc ValueError (lit "embedded null byte"))
            (NamedTemporaryFile (expected_ext (upload_filename Traffic.nul_named))
               Traffic.cramped).2 eq_refl _).
  vm_compute. reflexivity.
Defined.

(** When the upload has been read but its bytes cannot be written to the
    temporary file, [/transcribe] answers with its 400 around the text of
    the system's exception and [/transcribe-stream] lets that exception
    through; both leave before their [try/finally], so the staged file,
    which did not exist before, stays on disk with whatever the failed
    write left in it. *)
Theorem unwritten_upload_leaves_staged_file
    w audio language model tmp w0 content left_on_disk err
    (Hmodel : whisper_model w = Some model)
    (Htmp : NamedTemporaryFile (expected_ext (upload_filename audio)) w
              = (Ok tmp, w0))
    (Hread : upload_read audio = Ok content)
    (Hwrite : write_error (os_faults w) (fs w0) tmp content
                = Some (left_on_disk, err)) :
  (transcribe audio language w).1 =
    Raise (HTTPException 400 (lit "Failed to read audio: " ++ err.2)) ∧
  (transcribe_stream audio language w).1 = Raise (PyExc err.1 err.2) ∧
  fs w !! tmp = None ∧
  fs (transcribe audio language w).2 !! tmp = Some left_on_disk ∧
  fs (transcribe_stream audio language w).2 !! tmp = Some left_on_disk.
Proof.
  destruct (transcribe_stage_unwritten _ _ _ _ _ _ _ Htmp Hread Hwrite)
    as [Hstage Hsstage].
  destruct (NamedTemporaryFile_Ok _ _ _ _ Htmp) as (Hnew & _ & _ & _).
  rewrite (transcribe_stage_fails w audio language model _ _ Hmodel Hstage).
  rewrite (transcribe_stream_stage_fails w audio language model _ _ Hmodel Hsstage).
  simpl. rewrite lookup_insert_eq. by split_and!.
Qed.

Lemma unwritten_upload_leaves_staged_file_witness :
  (transcribe Sample.clip Sample.zh Traffic.cramped).1 =
    Raise (HTTPException 400
             (lit "Failed to read audio: [Errno 28] No space left on device")) ∧
  (transcribe_stream Sample.clip Sample.zh Traffic.cramped).1 =
    Raise (PyExc OSError (lit "[Errno 28] No space left on device")) ∧
  fs Traffic.cramped !! lit "/tmp/tmpk.mp3" = None ∧
  fs (transcribe Sample.clip Sample.zh Traffic.cramped).2 !! lit "/tmp/tmpk.mp3"
    = Some [] ∧
  fs (transcribe_stream Sample.clip Sample.zh Traffic.cramped).2
    !! lit "/tmp/tmpk.mp3" = Some [].
Proof.
  refine (unwritten_upload_leaves_staged_file Traffic.cramped Sample.clip Sample.zh
            Sample.model (lit "/tmp/tmpk.mp3")
            (NamedTemporaryFile (lit ".mp3") Traffic.cramped).2
            [82; 73; 70; 70]%N []
            (OSError, lit "[Errno 28] No space left on device")
            eq_refl _ eq_refl eq_refl).
  vm_compute. reflexivity.
Defined.

(** When the upload has been read and written but closing the temporary
    file fails, the exception leaves both routes as it is, also on
    [/transcribe] where the close is outside the [try]; the [try/finally]
    is not reached and the staged file stays on disk. *)
Theorem unclosed_upload_leaves_staged_file
    w audio language model tmp w0 content err
    (Hmodel : whisper_model w = Some model)
    (Htmp : NamedTemporaryFile (expected_ext (upload_filename audio)) w
              = (Ok tmp, w0))
    (Hread : upload_read audio = Ok content)
    (Hwrite : write_error (os_faults w) (fs w0) tmp content = None)
    (Hclose : close_error (os_faults w) (<[tmp := content]> (fs w0)) tmp
                = Some err) :
  (transcribe audio language w).1 = Raise (PyExc err.1 err.2) ∧
  (transcribe_stream audio language w).1 = Raise (PyExc err.1 err.2) ∧
  fs w !! tmp = None ∧
  is_Some (fs (transcribe audio language w).2 !! tmp) ∧
  is_Some (fs (transcribe_stream audio language w).2 !! tmp).
Proof.
  destruct (transcribe_stage_unclosed _ _ _ _ _ _ Htmp Hread Hwrite Hclose)
    as [Hstage Hsstage].
  destruct (NamedTemporaryFile_Ok _ _ _ _ Htmp) as (Hnew & _ & _ & _).
  rewrite (transcribe_stage_fails w audio language model _ _ Hmodel Hstage).
  rewrite (transcribe_stream_stage_fails w audio language model _ _ Hmodel Hsstage).
  simpl. rewrite lookup_insert_eq. by split_and!.
Qed.

Lemma unclosed_upload_leaves_staged_file_witness :
  (transcribe Sample.clip Sample.zh Traffic.unsynced).1 =
    Raise (PyExc OSError (lit "[Errno 5] Input/output error")) ∧
  (transcribe_stream Sample.clip Sample.zh Traffic.unsynced).1 =
    Raise (PyExc OSError (lit "[Errno 5] Input/output error")) ∧
  fs Traffic.unsynced !! lit "/tmp/tmpk.mp3" = None ∧
  is_Some (fs (transcribe Sample.clip Sample.zh Traffic.unsynced).2
             !! lit "/tmp/tmpk.mp3") ∧
  is_Some (fs (transcribe_stream Sample.clip Sample.zh Traffic.unsynced).2
             !! lit "/tmp/tmpk.mp3").
Proof.
  refine (unclosed_upload_leaves_staged_file Traffic.unsynced Sample.clip Sample.zh
            Sample.model (lit "/tmp/tmpk.mp3")
            (NamedTemporaryFile (lit ".mp3") Traffic.unsynced).2
            [82; 73; 70; 70]%N (OSError, lit "[Errno 5] Input/output error")
            eq_refl _ eq_refl eq_refl eq_refl).
  vm_compute. reflexivity.
Defined.

(** ** How many files a run can leave *)

Lemma one_new_file_size (before after : gmap str bytes) :
  at_most_one_new_file before after → size after ≤ S (size before).
Proof.
  intros [->|(tmp & content & Hnew & ->)]; [lia|].
  by rewrite (map_size_insert_None _ _ _ Hnew).
Qed.

Lemma app_health_files w : fs (app GetHealth w).2 = fs w.
Proof. by rewrite app_state. Qed.

(** The number of files on disk grows by at most one for each request that
    carries an upload, and not at all for [/health]; on a system that
    refuses neither a write, nor a close, nor an unlink, it grows by at
    most one for each request whose upload cannot be read, and not at all
    for the others. *)
Theorem files_grow_by_at_most_one_per_upload reqs w :
  size (fs (serve reqs w).2) ≤
    size (fs w) + length (filter (fun req => has_upload req) reqs) ∧
  (os_obliging w →
   size (fs (serve reqs w).2) ≤
     size (fs w) + length (filter (fun req => negb (readable req)) reqs)).
Proof.
  split.
  - revert w. induction reqs as [|req rest IH]; intros w; [simpl; lia|].
    rewrite serve_cons. simpl. specialize (IH (app req w).2).
    destruct (has_upload req) eqn:Hreq.
    + pose proof (one_new_file_size _ _ (app_files req w)) as Hstep.
      rewrite filter_cons_True; [simpl; lia|]. rewrite Hreq. exact I.
    + destruct req as [|audio hint|audio hint]; [|done|done].
      rewrite app_health_files in IH.
      rewrite filter_cons_False; [done|]. by intros [].
  - revert w. induction reqs as [|req rest IH]; intros w Hos; [simpl; lia|].
    rewrite serve_cons. simpl.
    specialize (IH (app req w).2 (os_obliging_holder _ _ (app_holder req w) Hos)).
    destruct (readable req) eqn:Hreq.
    + rewrite (app_readable_files req w Hreq Hos) in IH.
      rewrite filter_cons_False; [done|]. rewrite Hreq. by intros [].
    + pose proof (one_new_file_size _ _ (app_files req w)) as Hstep.
      rewrite filter_cons_True; [simpl; lia|]. rewrite Hreq. exact I.
Qed.

(** ** The two routes side by side *)

Lemma stages_agree_when_staged audio w tmp w1 :
  transcribe_stage audio w = (Ok tmp, w1) →
  transcribe_stream_stage audio w = (Ok tmp, w1).
Proof.
  intros Hstage.
  pose proof (transcribe_stage_outcome _ _ _ _ Hstage) as Hst.
  pose proof (transcribe_stream_stage_staged audio w) as Hsst.
  inversion Hst as [| | | |tmp' w0 content Htmp Hread Hwrite Hclose]; subst.
  destruct (transcribe_stream_stage audio w) as [r w2]. simpl in Hsst.
  inversion Hsst as [e w' Htmp'|tmp' w0' e Htmp' Hread'
                    |tmp' w0' content' c err Htmp' Hread' Hwrite'
                    |tmp' w0' content' err Htmp' Hread' Hwrite' Hclose'
                    |tmp' w0' content' Htmp' Hread' Hwrite' Hclose']; subst;
    rewrite Htmp in Htmp'; try done; injection Htmp' as <- <-;
    rewrite Hread in Hread'; try done; injection Hread' as <-;
    congruence.
Qed.

(** For a model that answers the two parameter sets alike, a successful
    [/transcribe] response and the [/transcribe-stream] response to the
    same request differ by the [text] field only: same segments, language
    and duration, and the same state afterwards. *)
Theorem stream_is_transcribe_without_text w audio hint r w'
    (Hsame : ∀ files path,
       match whisper_model w with
       | Some model =>
           model_transcribe model files path (stream_params hint) =
           model_transcribe model files path (full_params hint)
       | None => True
       end)
    (Hok : transcribe audio hint w = (Ok r, w')) :
  transcribe_stream audio hint w =
    (Ok {| s_segments := segments r;
           s_language := language r;
           s_duration := duration r |}, w').
Proof.
  destruct (transcribe_Ok_inv _ _ _ _ _ Hok)
    as (model & tmp & w1 & it & info & Hmodel & Hstage & [Hcall Hraises] & -> & ->).
  rewrite Hmodel in Hsame.
  rewrite (transcribe_stream_run w audio hint model tmp w1 Hmodel
             (stages_agree_when_staged _ _ _ _ Hstage)).
  rewrite Hsame, Hcall. unfold stream_response. by rewrite Hraises.
Qed.

Lemma stream_is_transcribe_without_text_witness :
  transcribe_stream Sample.clip Sample.zh Sample.world =
    (Ok {| s_segments := segments Sample.response;
           s_language := language Sample.response;
           s_duration := duration Sample.response |},
     (transcribe Sample.clip Sample.zh Sample.world).2).
Proof.
  refine (stream_is_transcribe_without_text Sample.world Sample.clip Sample.zh
            Sample.response (transcribe Sample.clip Sample.zh Sample.world).2 _ _).
  - intros files path. reflexivity.
  - vm_compute. reflexivity.
Defined.

(** ** A loaded service *)

Lemma app_transcribe_status audio hint w :
  http_status (app (PostTranscribe audio hint) w).1 =
  http_status (transcribe audio hint w).1.
Proof.
  unfold app, bind. by destruct (transcribe audio hint w) as [[r|e] w1].
Qed.

Lemma serve_loaded reqs w :
  is_Some (whisper_model w) →
  Forall2 (fun req r =>
             match req with
             | PostTranscribe _ _ => http_status r ≠ 503%Z
             | _ => True
             end) reqs (serve reqs w).1.
Proof.
  revert w. induction reqs as [|req rest IH]; intros w Hloaded; [constructor|].
  rewrite serve_cons. simpl. constructor.
  - destruct req as [|audio hint|audio hint]; [done| |done].
    rewrite app_transcribe_status.
    destruct (transcribe_503_iff_absent w audio hint) as [H503 _].
    intros Hcode. apply H503 in Hcode. rewrite Hcode in Hloaded.
    by destruct Hloaded.
  - apply IH. destruct (app_holder req w) as [-> _]. done.
Qed.

Lemma load_succeeds_stores w :
  load_succeeds w = true →
  ∃ model, load_whisper_model w =
             (Ok (Some model), set_whisper_model (Some model) w).
Proof.
  unfold load_succeeds, load_whisper_model.
  destruct (faster_whisper w) as [ctor|e]; [|done].
  destruct (load_config w) as [[model_size device] compute_type].
  unfold store_model.
  destruct (ctor model_size device compute_type) as [model|e]; [|done].
  by exists model.
Qed.

(** When the load succeeds, the process serves its whole lifetime with the
    handle present: no [/transcribe] request is answered with the 503,
    whatever requests came before it and however they ended; and the
    handle is absent again once the lifetime is over. *)
Theorem loaded_service_never_refuses reqs w
    (Hload : load_succeeds w = true) :
  ∃ rs, (run reqs w).1 = Some rs ∧
    Forall2 (fun req r =>
               match req with
               | PostTranscribe _ _ => http_status r ≠ 503%Z
               | _ => True
               end) reqs rs ∧
    whisper_model (run reqs w).2 = None.
Proof.
  destruct (load_succeeds_stores w Hload) as [model Hstored].
  unfold run, lifespan_startup, bind. rewrite Hstored. simpl.
  pose proof (serve_loaded reqs (set_whisper_model (Some model) w)) as Hserved.
  destruct (serve reqs (set_whisper_model (Some model) w)) as [rs w2].
  exists rs. simpl. split; [done|]. split; [|done].
  apply Hserved. by eexists.
Qed.

Lemma loaded_service_never_refuses_witness :
  ∃ rs, (run Traffic.mixed_requests Sample.unloaded).1 = Some rs ∧
    Forall2 (fun req r =>
               match req with
               | PostTranscribe _ _ => http_status r ≠ 503%Z
               | _ => True
               end) Traffic.mixed_requests rs ∧
    whisper_model (run Traffic.mixed_requests Sample.unloaded).2 = None.
Proof.
  exact (loaded_service_never_refuses Traffic.mixed_requests Sample.unloaded
           eq_refl).
Defined.

(** ** The suffix and the uploaded filename *)

(** The suffix computed at lines 127-128 and 197-198 is either the default
    [".webm"] or the end of the uploaded filename itself, taken as it is:
    no character of it is changed or normalised. *)
Theorem staged_suffix_is_default_or_tail filename :
  str_or (splitext (opt_or filename (lit "audio.webm"))).2 (lit ".webm")
    = lit ".webm" ∨
  ∃ name root,
    filename = Some name ∧
    name = root ++
      str_or (splitext (opt_or filename (lit "audio.webm"))).2 (lit ".webm").
Proof.
  rewrite staging_ext. destruct filename as [name|]; [|by left]. simpl.
  pose proof (splitext_concat name) as Hcat.
  destruct (splitext name).2 as [|c e] eqn:Hext; [by left|].
  right. by exists name, (splitext name).1.
Qed.
